(** * Screen Coach: frame preprocessing and change-detection pipeline

    A shallow embedding of [screen_coach/utils.py] and of the per-tick
    function [process_frame] of [screen_coach/main.py], with the
    properties of the pipeline specification stated and proved over it.

    Conventions of the embedding:
    - a Python [str] is a [string] of 8-bit characters; case mapping and
      white space follow CPython on the ASCII range, characters above 127
      are uninterpreted;
    - a Python [int] is a [Z];
    - a raised exception is a value of [exn], and a function that may
      raise returns [exn + A];
    - [PIL.Image.Image] objects live in a heap ([gmap nat Image]): a
      variable holds a location, [copy], [crop], [new] and [filter]
      allocate, [paste] updates in place;
    - the float arithmetic of the change detector is idealised as
      arithmetic over the real numbers. *)

From Stdlib Require Import ZArith Reals Lra Lia String Ascii List.
From Stdlib Require Strings.Byte.
From stdpp Require Import base option list gmap strings.

Open Scope Z_scope.

(** ** Python strings *)

Module PyStr.

Definition code (c : ascii) : Z := Z.of_N (N_of_ascii c).

(** [Py_UNICODE_ISSPACE] on the ASCII range: what [str.strip] removes. *)
Definition is_unicode_space (c : ascii) : bool :=
  ((9 <=? code c) && (code c <=? 13)) || ((28 <=? code c) && (code c <=? 32)).

(** [Py_ISSPACE]: what [int()] skips around an ASCII literal. *)
Definition is_ascii_space (c : ascii) : bool :=
  ((9 <=? code c) && (code c <=? 13)) || (code c =? 32).

Fixpoint lstrip_with (sp : ascii -> bool) (s : string) : string :=
  match s with
  | EmptyString => EmptyString
  | String c rest => if sp c then lstrip_with sp rest else s
  end.

Fixpoint rstrip_with (sp : ascii -> bool) (s : string) : string :=
  match s with
  | EmptyString => EmptyString
  | String c rest =>
      match rstrip_with sp rest with
      | EmptyString => if sp c then EmptyString else String c EmptyString
      | kept => String c kept
      end
  end.

(** [s.strip()] *)
Definition strip (s : string) : string :=
  rstrip_with is_unicode_space (lstrip_with is_unicode_space s).

(** [s.split(sep)] for a one-character separator: one piece more than
    there are separators, empty pieces kept. *)
Fixpoint split (sep : ascii) (s : string) : list string :=
  match s with
  | EmptyString => [EmptyString]
  | String c rest =>
      if Ascii.eqb c sep then EmptyString :: split sep rest
      else match split sep rest with
           | piece :: pieces => String c piece :: pieces
           | [] => [String c EmptyString]
           end
  end.

Definition upper_char (c : ascii) : ascii :=
  if (97 <=? code c) && (code c <=? 122)
  then ascii_of_N (N_of_ascii c - 32) else c.

Definition lower_char (c : ascii) : ascii :=
  if (65 <=? code c) && (code c <=? 90)
  then ascii_of_N (N_of_ascii c + 32) else c.

Fixpoint map_chars (f : ascii -> ascii) (s : string) : string :=
  match s with
  | EmptyString => EmptyString
  | String c rest => String (f c) (map_chars f rest)
  end.

(** [s.upper()] and [s.lower()] *)
Definition upper : string -> string := map_chars upper_char.
Definition lower : string -> string := map_chars lower_char.

(** [sub in s] *)
Fixpoint contains (sub s : string) : bool :=
  String.prefix sub s ||
  match s with
  | EmptyString => false
  | String _ rest => contains sub rest
  end.

(** Truth value of a string: [if s] holds for a non-empty [s]. *)
Definition truthy (s : string) : bool :=
  match s with EmptyString => false | String _ _ => true end.

Definition digit_value (c : ascii) : option Z :=
  if (48 <=? code c) && (code c <=? 57) then Some (code c - 48) else None.

(** The digits of a base-10 literal: decimal digits, with single
    underscores allowed between two digits. [acc] is the value read so
    far, [after_digit] tells whether the previous character was a digit. *)
Fixpoint long_from_digits (s : string) (acc : Z) (after_digit : bool) : option Z :=
  match s with
  | EmptyString => if after_digit then Some acc else None
  | String c rest =>
      match digit_value c with
      | Some d => long_from_digits rest (10 * acc + d) true
      | None =>
          if Ascii.eqb c "_"%char && after_digit
          then long_from_digits rest acc false
          else None
      end
  end.

(** [int(s)] for a string: optional white space, optional sign, digits,
    optional white space; [None] stands for the [ValueError]. *)
Definition int (s : string) : option Z :=
  let body := rstrip_with is_ascii_space (lstrip_with is_ascii_space s) in
  match body with
  | String "+"%char digits => long_from_digits digits 0 false
  | String "-"%char digits => Z.opp <$> long_from_digits digits 0 false
  | _ => long_from_digits body 0 false
  end.

End PyStr.

(** [sum(xs)] over integers *)
Definition Zsum (xs : list Z) : Z := foldr Z.add 0 xs.

(** ** Exceptions *)

Inductive exn : Type :=
  | ValueError (message : string)
  | IntLiteralError (literal : string)
      (* the ValueError of int(): invalid literal for int() with base 10 *)
  | KeyError (key : string)
  | ZeroDivisionError
  | DecompressionBombError (pixels : Z)
      (* Pillow's refusal of an image of more than twice MAX_IMAGE_PIXELS *)
  | ExternalError (message : string).
      (* an exception raised by an external collaborator *)

(** ** Regions ([utils.Region], [utils.parse_region_config]) *)

Record Region : Type := mkRegion {
  left : Z;
  top : Z;
  right : Z;
  bottom : Z
}.

Definition from_tuple (coords : list Z) : exn + Region :=
  match coords with
  | [l; t; r; b] =>
      if (r <=? l) || (b <=? t)
      then inl (ValueError "Invalid region dimensions")
      else inr (mkRegion l t r b)
  | _ => inl (ValueError "Region requires four integers: left, top, right, bottom")
  end.

(** [[int(part) for part in parts]]: the first part that is no integer
    literal raises. *)
Fixpoint int_each (parts : list string) : exn + list Z :=
  match parts with
  | [] => inr []
  | part :: rest =>
      match PyStr.int part with
      | None => inl (IntLiteralError part)
      | Some z =>
          match int_each rest with
          | inl e => inl e
          | inr zs => inr (z :: zs)
          end
      end
  end.

(** The parts of a chunk that the comprehension keeps:
    [part for part in chunk.split(",") if part.strip()]. *)
Definition kept_parts (chunk : string) : list string :=
  List.filter (fun part => PyStr.truthy (PyStr.strip part)) (PyStr.split "," chunk).

(** The body of the [for chunk in config.split(";")] loop, with the list
    [regions] built so far. *)
Fixpoint parse_chunks (chunks : list string) (regions : list Region) : exn + list Region :=
  match chunks with
  | [] => inr regions
  | chunk :: rest =>
      let chunk := PyStr.strip chunk in
      if negb (PyStr.truthy chunk) then parse_chunks rest regions
      else
        match int_each (kept_parts chunk) with
        | inl e => inl e
        | inr coords =>
            match from_tuple coords with
            | inl e => inl e
            | inr region => parse_chunks rest (regions ++ [region])
            end
        end
  end.

Definition parse_region_config (config : option string) : exn + list Region :=
  match config with
  | None => inr []
  | Some config =>
      if negb (PyStr.truthy config) then inr []
      else parse_chunks (PyStr.split ";" config) []
  end.

(** ** Bitmaps

    A [PIL.Image.Image] of mode RGB: its size and its rows of pixels, top
    row first. A well-formed image has [height] rows of [width] pixels. *)

Definition pixel : Type := Byte.byte * Byte.byte * Byte.byte.

Record Image : Type := mkImage {
  width : Z;
  height : Z;
  rows : list (list pixel)
}.

Definition size (im : Image) : Z * Z := (width im, height im).

Definition wf_image (im : Image) : Prop :=
  Z.of_nat (length (rows im)) = height im ∧
  Forall (fun row => Z.of_nat (length row) = width im) (rows im).

Definition Z_of_byte (b : Byte.byte) : Z := Z.of_N (Byte.to_N b).

Definition byte_of_Z (z : Z) : Byte.byte :=
  default Byte.x00 (Byte.of_N (Z.to_N z)).

(** [CLIP8]: how Pillow stores an integer colour component. *)
Definition clip8 (z : Z) : Byte.byte := byte_of_Z (Z.max 0 (Z.min 255 z)).

Definition black : pixel := (Byte.x00, Byte.x00, Byte.x00).

Definition ink (color : Z * Z * Z) : pixel :=
  let '(r, g, b) := color in (clip8 r, clip8 g, clip8 b).

(** The pixel in column [x] of row [y], when there is one. *)
Definition pixel_at (im : Image) (x y : Z) : option pixel :=
  if (0 <=? x) && (0 <=? y)
  then rows im !! Z.to_nat y ≫= (fun row => row !! Z.to_nat x)
  else None.

(** [w] columns and [h] rows, pixel [(x, y)] being [f x y]. *)
Definition grid (w h : Z) (f : Z -> Z -> pixel) : list (list pixel) :=
  (fun y => (fun x => f x y) <$> seqZ 0 w) <$> seqZ 0 h.

Definition box : Type := Z * Z * Z * Z.

Definition in_box (b : box) (x y : Z) : bool :=
  let '(l, t, r, d) := b in (l <=? x) && (x <? r) && (t <=? y) && (y <? d).

(** [Image.MAX_IMAGE_PIXELS], which is [int(1024 * 1024 * 1024 // 4 // 3)]. *)
Definition MAX_IMAGE_PIXELS : Z := 89478485.

(** The number of pixels that [Image._crop] hands to the check of the
    size: [max(1, abs(x1 - x0)) * max(1, abs(y1 - y0))]. *)
Definition crop_pixels (b : box) : Z :=
  let '(l, t, r, d) := b in
  Z.max 1 (Z.abs (r - l)) * Z.max 1 (Z.abs (d - t)).

(** [Image._decompression_bomb_check]: above twice [MAX_IMAGE_PIXELS]
    the check raises; between the limit and twice the limit it warns,
    which raises nothing. *)
Definition decompression_bomb_check (pixels : Z) : option exn :=
  if 2 * MAX_IMAGE_PIXELS <? pixels
  then Some (DecompressionBombError pixels)
  else None.

(** [ImagingCrop]: the output has the size of the box; what lies outside
    the source is zero. *)
Definition crop_data (im : Image) (b : box) : Image :=
  let '(l, t, r, d) := b in
  let w := Z.max 0 (r - l) in
  let h := Z.max 0 (d - t) in
  mkImage w h (grid w h (fun x y => default black (pixel_at im (x + l) (y + t)))).

(** [ImagingNew] followed by a fill with one colour. *)
Definition fill_data (sz : Z * Z) (color : Z * Z * Z) : Image :=
  mkImage (fst sz) (snd sz) (grid (fst sz) (snd sz) (fun _ _ => ink color)).

(** [ImagingPaste] without a mask: the source must have the size of the
    box; the part of the box that falls outside the destination is
    dropped, the rest of the destination is overwritten. *)
Definition paste_data (dst src : Image) (b : box) : exn + Image :=
  let '(l, t, r, d) := b in
  if negb ((r - l =? width src) && (d - t =? height src))
  then inl (ValueError "images do not match")
  else inr (mkImage (width dst) (height dst)
              (imap (fun y row =>
                 imap (fun x p =>
                   if in_box b (Z.of_nat x) (Z.of_nat y)
                   then default black (pixel_at src (Z.of_nat x - l) (Z.of_nat y - t))
                   else p) row)
                 (rows dst))).

Definition sample_difference (a b : Byte.byte) : Byte.byte :=
  byte_of_Z (Z.abs (Z_of_byte a - Z_of_byte b)).

Definition pixel_difference (p q : pixel) : pixel :=
  let '(r1, g1, b1) := p in
  let '(r2, g2, b2) := q in
  (sample_difference r1 r2, sample_difference g1 g2, sample_difference b1 b2).

(** [ImagingChopDifference]: computed over the common part of the two
    images, which is all of them when they have the same size. *)
Definition difference_data (im1 im2 : Image) : Image :=
  mkImage (Z.min (width im1) (width im2)) (Z.min (height im1) (height im2))
    (zip_with (zip_with pixel_difference) (rows im1) (rows im2)).

Definition red (p : pixel) : Byte.byte := p.1.1.
Definition green (p : pixel) : Byte.byte := p.1.2.
Definition blue (p : pixel) : Byte.byte := p.2.

Definition pixels (im : Image) : list pixel := concat (rows im).

(** The number of samples of value [i]. *)
Definition count_of (samples : list Byte.byte) (i : Z) : Z :=
  Z.of_nat (length (List.filter (fun s => Z_of_byte s =? i) samples)).

(** The 256 counts of one band: bucket [i] counts the samples of value [i]. *)
Definition band_histogram (samples : list Byte.byte) : list Z :=
  count_of samples <$> seqZ 0 256.

(** [ImagingGetHistogram] of an RGB image: the 768 counts, band R, then G,
    then B. *)
Definition histogram_data (im : Image) : list Z :=
  band_histogram (red <$> pixels im) ++
  band_histogram (green <$> pixels im) ++
  band_histogram (blue <$> pixels im).

(** ** External libraries

    What the program takes from Pillow and hashlib without the code being
    part of it: the value of a blurred pixel, the resampled thumbnail,
    the encoders behind [Image.save], and SHA-1. Of the thumbnail the
    development uses one fact: within positive bounds, the thumbnail of
    an image that has pixels has pixels ([Image.thumbnail] rounds each
    side of the new size up to one pixel at least) and fits the
    bounds. *)

Class Pillow : Type := {
  (* ImageFilter.GaussianBlur(radius) applied to an image: pixel (x, y) of the result *)
  GaussianBlur_pixel : Z -> Image -> Z -> Z -> pixel;
  (* Image.thumbnail(max_size, LANCZOS): the image after the call *)
  thumbnail_data : Image -> Z * Z -> Image;
  (* the save handler registered for a format: image, quality, optimize, method *)
  save_handler : string -> Image -> Z -> bool -> option Z -> list Byte.byte;
  (* the exception with which the encoder of a format refuses an image *)
  save_refusal : string -> Image -> exn;
  thumbnail_within : forall (im : Image) (max_size : Z * Z),
    0 < width im -> 0 < height im -> 0 < fst max_size -> 0 < snd max_size ->
    0 < width (thumbnail_data im max_size) <= fst max_size /\
    0 < height (thumbnail_data im max_size) <= snd max_size
}.

Class Hashlib : Type := {
  sha1_hexdigest : list Byte.byte -> string
}.

(** The format identifiers for which Pillow registers a save handler
    ([Image.SAVE]); JPEG files are registered under the one name JPEG, the
    spelling JPG being a file extension only. *)
Definition SAVE : list string :=
  ["BLP"; "BMP"; "BUFR"; "DDS"; "DIB"; "EPS"; "GIF"; "GRIB"; "HDF5"; "ICNS";
   "ICO"; "IM"; "JPEG"; "JPEG2000"; "MPO"; "MSP"; "PALM"; "PCX"; "PDF";
   "PNG"; "PPM"; "SGI"; "SPIDER"; "TGA"; "TIFF"; "WEBP"; "WMF"; "XBM"]%string.

(** ** The world of a run: the heap of images and the calls made so far *)

Inductive overlay_text : Type :=
  | Text (text : string)
  | Formatted (prefix : string) (exc : exn).
      (* an f-string that ends with the text of an exception *)

Inductive event : Type :=
  | WindowTitleRead (title : option string)
  | Captured (result : exn + Image)
  | Analyzed (prompt : string) (payload : list Byte.byte) (mime : string)
             (result : exn + string)
  | OverlayUpdated (text : overlay_text).

Record World : Type := mkWorld {
  heap : gmap nat Image;
  trace : list event
}.

(** A computation that reads and updates the world and either returns or
    raises. *)
Definition M (A : Type) : Type := World -> (exn + A) * World.

Definition ret {A} (a : A) : M A := fun w => (inr a, w).

Definition raise {A} (e : exn) : M A := fun w => (inl e, w).

Definition bind {A B} (m : M A) (k : A -> M B) : M B :=
  fun w =>
    match m w with
    | (inl e, w') => (inl e, w')
    | (inr a, w') => k a w'
    end.

(** [try: ... except Exception as exc: ...]: the outcome as a value. *)
Definition try_except {A} (m : M A) : M (exn + A) :=
  fun w => let '(r, w') := m w in (inr r, w').

Declare Scope py_scope.
Delimit Scope py_scope with py.
Notation "x <- m ;; k" := (bind m (fun x => k))
  (at level 100, m at next level, right associativity) : py_scope.
Notation "m ;;; k" := (bind m (fun _ => k))
  (at level 100, right associativity) : py_scope.
Open Scope py_scope.

(** The object a variable refers to. A location without an object is
    not a state a Python program can reach. *)
Definition load (l : nat) : M Image :=
  fun w =>
    match heap w !! l with
    | Some im => (inr im, w)
    | None => (inl (ExternalError "no object at this location"), w)
    end.

Definition store (l : nat) (im : Image) : M unit :=
  fun w => (inr tt, mkWorld (<[l := im]> (heap w)) (trace w)).

(** A new object, at a location that holds none. *)
Definition alloc (im : Image) : M nat :=
  fun w =>
    let l := fresh (dom (heap w)) in
    (inr l, mkWorld (<[l := im]> (heap w)) (trace w)).

Definition emit (ev : event) : M unit :=
  fun w => (inr tt, mkWorld (heap w) (trace w ++ [ev])).

(** ** Pillow operations on image objects *)

Section pillow.
Context {PIL : Pillow}.

(** [image.copy()] *)
Definition Image_copy (image : nat) : M nat :=
  im <- load image ;; alloc im.

(** [image.size] *)
Definition Image_size (image : nat) : M (Z * Z) :=
  im <- load image ;; ret (size im).

(** [image.crop(box)]: the two checks of the box, then [Image._crop],
    which checks the size of the crop before it cuts. *)
Definition Image_crop (image : nat) (b : box) : M nat :=
  let '(l, t, r, d) := b in
  if r <? l then raise (ValueError "Coordinate 'right' is less than 'left'")
  else if d <? t then raise (ValueError "Coordinate 'lower' is less than 'upper'")
  else
    im <- load image ;;
    match decompression_bomb_check (crop_pixels b) with
    | Some e => raise e
    | None => alloc (crop_data im b)
    end.

(** [Image.new("RGB", size, color)], for a colour of three integers
    that Pillow reads and stores clipped to a byte each. *)
Definition Image_new (sz : Z * Z) (color : Z * Z * Z) : M nat :=
  if (fst sz <? 0) || (snd sz <? 0)
  then raise (ValueError "Width and height must be >= 0")
  else alloc (fill_data sz color).

(** [image.filter(ImageFilter.GaussianBlur(radius=radius))]: a new image
    of the same size. *)
Definition Image_filter_GaussianBlur (image : nat) (radius : Z) : M nat :=
  im <- load image ;;
  alloc (mkImage (width im) (height im)
           (grid (width im) (height im) (GaussianBlur_pixel radius im))).

(** [image.paste(source, box)]: updates [image] in place. *)
Definition Image_paste (image source : nat) (b : box) : M unit :=
  src <- load source ;;
  dst <- load image ;;
  match paste_data dst src b with
  | inl e => raise e
  | inr dst' => store image dst'
  end.

(** [image.thumbnail(max_size, Image.LANCZOS)]: updates [image] in place. *)
Definition Image_thumbnail (image : nat) (max_size : Z * Z) : M unit :=
  im <- load image ;; store image (thumbnail_data im max_size).

(** The longest side that the encoder of a format writes: 16383 pixels
    for WebP ([WEBP_MAX_DIMENSION]), 65500 for JPEG
    ([JPEG_MAX_DIMENSION]). *)
Definition encoder_limit (fmt : string) : Z :=
  if bool_decide (fmt = "WEBP"%string) then 16383 else 65500.

(** What the encoder of a format accepts: an image that has a pixel and
    whose sides are within the limit of the format. *)
Definition encodable (fmt : string) (im : Image) : bool :=
  (0 <? width im) && (width im <=? encoder_limit fmt) &&
  (0 <? height im) && (height im <=? encoder_limit fmt).

(** [image.save(buffer, format=fmt, quality=..., optimize=..., method=...)]
    followed by [buffer.getvalue()]: the handler is looked up under the
    upper-cased format name, and a name without handler raises; the
    encoders of JPEG and WEBP, the two that the program can reach,
    refuse an image without pixels or with too long a side. *)
Definition Image_save (image : nat) (fmt : string) (quality : Z)
    (optimize : bool) (method : option Z) : M (list Byte.byte) :=
  im <- load image ;;
  if bool_decide (PyStr.upper fmt ∈ SAVE)
  then
    if bool_decide (PyStr.upper fmt ∈ ["JPEG"; "WEBP"]%string)
       && negb (encodable (PyStr.upper fmt) im)
    then raise (save_refusal (PyStr.upper fmt) im)
    else ret (save_handler (PyStr.upper fmt) im quality optimize method)
  else raise (KeyError (PyStr.upper fmt)).

(** [ImageChops.difference(image1, image2)] *)
Definition ImageChops_difference (image1 image2 : nat) : M nat :=
  im1 <- load image1 ;;
  im2 <- load image2 ;;
  alloc (difference_data im1 im2).

(** [image.histogram()] *)
Definition Image_histogram (image : nat) : M (list Z) :=
  im <- load image ;; ret (histogram_data im).

(** ** [screen_coach/utils.py] *)

Definition resize_image (image : nat) (max_size : Z * Z) : M nat :=
  image <- Image_copy image ;;
  Image_thumbnail image max_size ;;;
  ret image.

Definition compress_image (image : nat) (format : string) (quality : Z)
    (optimize : bool) : M (list Byte.byte * string) :=
  let fmt := PyStr.upper format in
  let fmt := if bool_decide (fmt ∈ ["JPEG"; "JPG"; "WEBP"]%string) then fmt
             else "JPEG"%string in
  let mime := if bool_decide (fmt ∈ ["JPEG"; "JPG"]%string)
              then "image/jpeg"%string else "image/webp"%string in
  let method := if bool_decide (fmt = "WEBP"%string) then Some 6 else None in
  data <- Image_save image fmt quality optimize method ;;
  ret (data, mime).

(** The body of [for region in regions]. *)
Fixpoint redact_loop (processed : nat) (regions : list Region)
    (blur_radius : Z) (fill_color : option (Z * Z * Z)) : M unit :=
  match regions with
  | [] => ret tt
  | region :: rest =>
      let b := (left region, top region, right region, bottom region) in
      crop <- Image_crop processed b ;;
      crop <- match fill_color with
              | None => Image_filter_GaussianBlur crop blur_radius
              | Some color => sz <- Image_size crop ;; Image_new sz color
              end ;;
      Image_paste processed crop b ;;;
      redact_loop processed rest blur_radius fill_color
  end.

Definition redact_regions (image : nat) (regions : list Region)
    (blur_radius : Z) (fill_color : option (Z * Z * Z)) : M nat :=
  processed <- Image_copy image ;;
  redact_loop processed regions blur_radius fill_color ;;;
  ret processed.

(** [sum(value * ((idx % 256) ** 2) for idx, value in enumerate(histogram))] *)
Definition sum_squares (histogram : list Z) : Z :=
  Zsum (imap (fun idx value => value * (Z.of_nat idx mod 256) ^ 2) histogram).

(** [(s / float(total_pixels)) ** 0.5]; the division raises when
    [total_pixels] is zero. *)
Definition root_mean (s total_pixels : Z) : exn + R :=
  if total_pixels =? 0 then inl ZeroDivisionError
  else inr (sqrt (IZR s / IZR total_pixels)).

Definition Rgeb (a b : R) : bool := if Rge_dec a b then true else false.

Definition has_significant_change (current : nat) (previous : option nat)
    (threshold : R) : M bool :=
  match previous with
  | None => ret true
  | Some previous =>
      diff <- ImageChops_difference current previous ;;
      histogram <- Image_histogram diff ;;
      sz <- Image_size current ;;
      let total_pixels := fst sz * snd sz * 3 in
      match root_mean (sum_squares histogram) total_pixels with
      | inl e => raise e
      | inr rms => ret (Rgeb rms threshold)
      end
  end.

End pillow.

(** ** [screen_coach/main.py] *)

(** The command-line arguments that [process_frame] reads. *)
Record Args : Type := mkArgs {
  window_keywords : list string;
  prompt : string;
  no_webp : bool
}.

(** The variables [process_frame] declares [nonlocal]. *)
Record PipelineState : Type := mkState {
  last_payload_digest : option string;
  last_image : option nat;
  last_message : string
}.

(** The state [main] starts the timer with. *)
Definition initial_state : PipelineState := mkState None None "".

(** What the external collaborators answer during one tick: the window
    classifier, the frame source and the analysis service. *)
Record Tick : Type := mkTick {
  active_window_title : option string;
  grab : exn + Image;
  respond : string -> list Byte.byte -> string -> exn + string
}.

Section pipeline.
Context {PIL : Pillow} {hash : Hashlib}.

(** [utils.get_active_window_title()] *)
Definition get_active_window_title (tick : Tick) : M (option string) :=
  emit (WindowTitleRead (active_window_title tick)) ;;;
  ret (active_window_title tick).

(** [capture_frame(grabber)]: the grabbed frame becomes a new image. *)
Definition capture_frame (tick : Tick) : M nat :=
  emit (Captured (grab tick)) ;;;
  match grab tick with
  | inl e => raise e
  | inr im => alloc im
  end.

(** [analyze_frame(client, prompt, payload, mime_type)] *)
Definition analyze_frame (tick : Tick) (prompt : string)
    (payload : list Byte.byte) (mime_type : string) : M string :=
  emit (Analyzed prompt payload mime_type (respond tick prompt payload mime_type)) ;;;
  match respond tick prompt payload mime_type with
  | inl e => raise e
  | inr text => ret text
  end.

(** [overlay.update_text(text)] *)
Definition update_text (text : overlay_text) : M unit :=
  emit (OverlayUpdated text).

(** [utils.compute_digest] *)
Definition compute_digest (data : list Byte.byte) : string :=
  sha1_hexdigest data.

Definition encode_frame (image : nat) (prefer_webp : bool) : M (list Byte.byte * string) :=
  processed <- resize_image image (1280, 720) ;;
  let fmt := if prefer_webp then "WEBP"%string else "JPEG"%string in
  compress_image processed fmt 80 true.

Definition should_skip_window (tick : Tick) (allowed_keywords : list string) : M bool :=
  match allowed_keywords with
  | [] => ret false
  | _ =>
      title <- get_active_window_title tick ;;
      match title with
      | None => ret false
      | Some title =>
          let lowered := PyStr.lower title in
          ret (negb (existsb (fun keyword => PyStr.contains (PyStr.lower keyword) lowered)
                       allowed_keywords))
      end
  end.

(** One tick. The result is the value of the [nonlocal] variables when
    the function returns; an exception that no handler of the function
    catches leaves them as they were. *)
Definition process_frame (args : Args) (regions : list Region) (tick : Tick)
    (st : PipelineState) : M PipelineState :=
  skip <- should_skip_window tick (window_keywords args) ;;
  if skip : bool then
    update_text (Text "Waiting for target window…") ;;; ret st
  else
    captured <- try_except (capture_frame tick) ;;
    match captured with
    | inl exc => update_text (Formatted "Capture failed: " exc) ;;; ret st
    | inr screenshot =>
        screenshot <- match regions with
                      | [] => ret screenshot
                      | _ => redact_regions screenshot regions 25 (Some (0, 0, 0))
                      end ;;
        changed <- has_significant_change screenshot (last_image st) 8 ;;
        if negb changed then ret st
        else
          encoded <- encode_frame screenshot (negb (no_webp args)) ;;
          let '(payload, mime) := encoded in
          let digest_hash := compute_digest payload in
          if bool_decide (last_payload_digest st = Some digest_hash) then ret st
          else
            analysis <- try_except (analyze_frame tick (prompt args) payload mime) ;;
            match analysis with
            | inl exc => update_text (Formatted "Analysis failed: " exc) ;;; ret st
            | inr message =>
                if negb (PyStr.truthy message) then ret st
                else
                  st <- (if bool_decide (message ≠ last_message st)
                         then update_text (Text message) ;;;
                              ret (mkState (last_payload_digest st) (last_image st) message)
                         else ret st) ;;
                  ret (mkState (Some digest_hash) (Some screenshot) (last_message st))
            end
    end.

End pipeline.

(** * Vocabulary of the properties *)

(** ** Regions and redaction *)

Definition region_box (region : Region) : box :=
  (left region, top region, right region, bottom region).

(** The invariant of [Region]: what [from_tuple] lets through. *)
Definition Region_valid (region : Region) : Prop :=
  left region < right region ∧ top region < bottom region.



(** A region that [crop] accepts: it covers at most twice
    [MAX_IMAGE_PIXELS] pixels, 178956970 of them. *)
Definition Region_croppable (region : Region) : Prop :=
  crop_pixels (region_box region) ≤ 2 * MAX_IMAGE_PIXELS.

Section patches.
Context {PIL : Pillow}.

(** What [redact_loop] pastes over a box of [im]: the blurred or filled
    crop. *)
Definition patch (im : Image) (b : box) (blur_radius : Z)
    (fill_color : option (Z * Z * Z)) : Image :=
  let crop := crop_data im b in
  match fill_color with
  | None => mkImage (width crop) (height crop)
              (grid (width crop) (height crop) (GaussianBlur_pixel blur_radius crop))
  | Some color => fill_data (size crop) color
  end.

(** The payload and media type that [encode_frame] produces for a
    bitmap. *)
Definition encoding (im : Image) (prefer_webp : bool) : list Byte.byte * string :=
  if prefer_webp
  then (save_handler "WEBP" (thumbnail_data im (1280, 720)) 80 true (Some 6),
        "image/webp"%string)
  else (save_handler "JPEG" (thumbnail_data im (1280, 720)) 80 true None,
        "image/jpeg"%string).

(** The outcome of [encode_frame] for a bitmap: its encoding, or the
    refusal of the encoder when it does not accept the thumbnail. *)
Definition encode_result (im : Image) (prefer_webp : bool)
    : exn + list Byte.byte * string :=
  let fmt := if prefer_webp then "WEBP"%string else "JPEG"%string in
  if encodable fmt (thumbnail_data im (1280, 720))
  then inr (encoding im prefer_webp)
  else inl (save_refusal fmt (thumbnail_data im (1280, 720))).

End patches.

(** ** Groups of a region configuration *)

(** The groups of a configuration that the loop does not skip: the
    stripped chunks that are not empty. *)
Definition nonblank_groups (config : string) : list string :=
  List.filter PyStr.truthy (PyStr.strip <$> PyStr.split ";" config).

(** The tokens a group is read from are its kept parts: the parts between
    commas that are not blank. A group yields [region] when these are
    exactly four integers that form a non-degenerate rectangle. *)
Definition group_region (group : string) (region : Region) : Prop :=
  PyStr.int <$> kept_parts group
  = [Some (left region); Some (top region); Some (right region); Some (bottom region)] ∧
  Region_valid region.

(** The three ways in which a group is refused, each with the exception
    that tells the reason. *)
Inductive group_error (group : string) : exn → Prop :=
  | NotAnInteger (before : list string) (part : string) (after : list string) :
      kept_parts group = before ++ part :: after →
      Forall (fun p => is_Some (PyStr.int p)) before →
      PyStr.int part = None →
      group_error group (IntLiteralError part)
  | WrongFieldCount (coords : list Z) :
      PyStr.int <$> kept_parts group = Some <$> coords →
      length coords ≠ 4%nat →
      group_error group
        (ValueError "Region requires four integers: left, top, right, bottom")
  | DegenerateRectangle (l t r b : Z) :
      PyStr.int <$> kept_parts group = [Some l; Some t; Some r; Some b] →
      r ≤ l ∨ b ≤ t →
      group_error group (ValueError "Invalid region dimensions").

(** One group, as the loop body reads it. *)
Definition read_group (group : string) : exn + Region :=
  match int_each (kept_parts group) with
  | inl e => inl e
  | inr coords => from_tuple coords
  end.

(** ** The root mean square *)

(** The sum of the squares of the samples of one band. *)
Definition sum_of_squares (samples : list Byte.byte) : Z :=
  Zsum ((fun s => Z_of_byte s ^ 2) <$> samples).

(** The sum of the squares of the three samples of a pixel. *)
Definition energy (p : pixel) : Z :=
  Z_of_byte (red p) ^ 2 + Z_of_byte (green p) ^ 2 + Z_of_byte (blue p) ^ 2.

(** The direct reading of the specification: over all pixels and the
    three channels, the mean of the squares of the absolute differences,
    and its square root; the mean over no sample is a division by zero. *)
Definition squared_difference (p q : pixel) : Z :=
  Z.abs (Z_of_byte (red p) - Z_of_byte (red q)) ^ 2 +
  Z.abs (Z_of_byte (green p) - Z_of_byte (green q)) ^ 2 +
  Z.abs (Z_of_byte (blue p) - Z_of_byte (blue q)) ^ 2.

Definition direct_sum_squares (current previous : Image) : Z :=
  Zsum ((fun y =>
           Zsum ((fun x =>
                    match pixel_at current x y, pixel_at previous x y with
                    | Some p, Some q => squared_difference p q
                    | _, _ => 0
                    end) <$> seqZ 0 (width current)))
          <$> seqZ 0 (height current)).

Definition direct_rms (current previous : Image) : exn + R :=
  let samples := width current * height current * 3 in
  if samples =? 0 then inl ZeroDivisionError
  else inr (sqrt (IZR (direct_sum_squares current previous) / IZR samples)).

(** The root mean square as [has_significant_change] computes it, from
    the histogram of the difference image. *)
Definition histogram_rms (current previous : Image) : exn + R :=
  root_mean (sum_squares (histogram_data (difference_data current previous)))
    (width current * height current * 3).

(** ** Traces and heaps *)

(** A computation only adds to the trace. *)
Definition appends {A} (m : M A) : Prop :=
  ∀ w, ∃ evs, trace (m w).2 = trace w ++ evs.

(** A computation makes no call and keeps every existing object. *)
Definition quiet {A} (m : M A) : Prop :=
  ∀ w, trace (m w).2 = trace w ∧
       ∀ l v, heap w !! l = Some v → heap (m w).2 !! l = Some v.

Definition is_analysis (ev : event) : Prop :=
  match ev with Analyzed _ _ _ _ => True | _ => False end.

Section outcomes.
Context {hash : Hashlib}.

(** The outcome of a tick that received an answer from the analysis
    service. *)
Definition after_analysis (st : PipelineState) (screenshot : nat)
    (payload : list Byte.byte) (result : exn + string) : PipelineState :=
  match result with
  | inl _ => st
  | inr message =>
      if PyStr.truthy message
      then mkState (Some (compute_digest payload)) (Some screenshot) message
      else st
  end.

End outcomes.

(** ** Concrete instances *)

(** Instances of the external libraries for concrete runs: a blur of
    radius zero, the thumbnail of an image that fits the bounds, an
    encoder that writes the red band, and the payload as its own digest. *)
Module Example.

(** A thumbnail by cutting: an image within the bounds is left as it
    is, a larger one loses what lies beyond them. *)
Definition cut_to (im : Image) (max_size : Z * Z) : Image :=
  if (width im <=? fst max_size) && (height im <=? snd max_size) then im
  else crop_data im (0, 0, Z.min (width im) (fst max_size),
                     Z.min (height im) (snd max_size)).

#[program] Definition pillow : Pillow := {|
  GaussianBlur_pixel := fun _ im x y => default black (pixel_at im x y);
  thumbnail_data := cut_to;
  save_handler := fun _ im _ _ _ => red <$> pixels im;
  save_refusal := fun fmt _ => ValueError (String.append "cannot write image as " fmt);
  thumbnail_within := _
|}.
Next Obligation.
  intros im max_size Hw Hh Hx Hy. unfold cut_to.
  destruct (Z.leb_spec (width im) (fst max_size));
    destruct (Z.leb_spec (height im) (snd max_size)); simpl; lia.
Qed.

Definition hashlib : Hashlib := {|
  sha1_hexdigest := string_of_list_byte
|}.

Definition white : pixel := (Byte.xff, Byte.xff, Byte.xff).

(** A white bitmap of two rows and two columns. *)
Definition white_2x2 : Image := mkImage 2 2 [[white; white]; [white; white]].

(** A bitmap without pixels. *)
Definition empty_image : Image := mkImage 0 0 [].

(** A world whose only object, at location 0, is [im]. *)
Definition world_with (im : Image) : World := mkWorld {[ 0%nat := im ]} [].

End Example.

(** Concrete ticks: no keyword filter, a white frame, and an analysis
    service that answers with a fixed text. *)
Module ExampleTick.

Definition args : Args := mkArgs [] "Describe the screen" false.

Definition tick (answer : string) : Tick :=
  mkTick None (inr Example.white_2x2) (fun _ _ _ => inr answer).

Definition start : World := mkWorld ∅ [].

Definition payload : list Byte.byte := [Byte.xff; Byte.xff; Byte.xff; Byte.xff].

End ExampleTick.

(** * Further functions of the program and their vocabulary *)

(** ** [main.py]: the keyword list and the start of a session *)

(** The type of [--window-keywords] in [build_arg_parser], also applied
    to the environment default:
    [[chunk.strip() for chunk in value.split(",") if chunk.strip()]]. *)
Definition window_keywords_type (value : string) : list string :=
  PyStr.strip <$> List.filter (fun chunk => PyStr.truthy (PyStr.strip chunk))
                    (PyStr.split "," value).

(** The exceptions that [except ValueError] catches. *)
Definition is_ValueError (e : exn) : bool :=
  match e with
  | ValueError _ | IntLiteralError _ => true
  | _ => false
  end.

(** The regions [main] runs with: those of [args.redact], or none, with a
    message on the overlay, when the configuration is refused. *)
Definition configured_regions (redact : string) : M (list Region) :=
  match parse_region_config (Some redact) with
  | inr regions => ret regions
  | inl exc =>
      if is_ValueError exc
      then update_text (Formatted "Invalid redaction config: " exc) ;;; ret []
      else raise exc
  end.

(** [analyze_frame] returns [response.output_text.strip()]: the answers of
    a tick, given what the service sends back. *)
Definition stripped_answers
    (service : string -> list Byte.byte -> string -> exn + string)
    : string -> list Byte.byte -> string -> exn + string :=
  fun prompt payload mime =>
    match service prompt payload mime with
    | inl e => inl e
    | inr output_text => inr (PyStr.strip output_text)
    end.

(** ** [utils.get_active_window_title]

    What the desktop answers to the calls of the function: the name of
    the system, and for each system the outcome of its calls, an
    exception or a value. Each outcome stands for the calls up to the
    one named: an exception of an import or of an earlier call of the
    same branch is the exception of the outcome. *)
Record Desktop : Type := mkDesktop {
  platform_system : string;
  (* import ctypes ... user32.GetWindowTextLengthW(handle) *)
  GetWindowTextLengthW : exn + Z;
  (* create_unicode_buffer(length + 1) ...
     buffer.value after user32.GetWindowTextW(handle, buffer, length + 1) *)
  GetWindowTextW : exn + string;
  (* from AppKit import NSWorkspace ... frontmostApplication(), when there
     is one, and its localizedName() *)
  frontmostApplication : exn + option (option string);
  (* proc.stdout of subprocess.run(xdotool getwindowfocus getwindowname) *)
  xdotool : exn + string
}.

(** [value or None] for a string. *)
Definition or_None (value : string) : option string :=
  if PyStr.truthy value then Some value else None.

Definition window_title_lookup (desktop : Desktop) : option string :=
  if bool_decide (platform_system desktop = "Windows"%string) then
    match GetWindowTextLengthW desktop with
    | inl _ => None
    | inr length =>
        if length =? 0 then None
        else match GetWindowTextW desktop with
             | inl _ => None
             | inr value => or_None value
             end
    end
  else if bool_decide (platform_system desktop = "Darwin"%string) then
    match frontmostApplication desktop with
    | inl _ => None
    | inr None => None
    | inr (Some localizedName) => localizedName
    end
  else if bool_decide (platform_system desktop = "Linux"%string) then
    match xdotool desktop with
    | inl _ => None
    | inr stdout => or_None (PyStr.strip stdout)
    end
  else None.

(** ** The window filter, read as a function *)

(** Some keyword occurs in the title, letter case apart. *)
Definition title_matches (keywords : list string) (title : string) : bool :=
  existsb (fun keyword => PyStr.contains (PyStr.lower keyword) (PyStr.lower title))
    keywords.

Definition skips (tick : Tick) (keywords : list string) : bool :=
  match keywords with
  | [] => false
  | _ =>
      match active_window_title tick with
      | None => false
      | Some title => negb (title_matches keywords title)
      end
  end.

(** The call the window filter makes. *)
Definition window_events (tick : Tick) (keywords : list string) : list event :=
  match keywords with
  | [] => []
  | _ => [WindowTitleRead (active_window_title tick)]
  end.

(** ** Redaction and change detection, read on the bitmaps *)

(** The answer of the change detector for a bitmap and the previous one. *)
Definition change_decision (current : Image) (previous : option Image)
    (threshold : R) : exn + bool :=
  match previous with
  | None => inr true
  | Some previous =>
      match histogram_rms current previous with
      | inl e => inl e
      | inr rms => inr (Rgeb rms threshold)
      end
  end.

(** The frame a pipeline state refers to is an object of the heap. *)
Definition frame_stored (st : PipelineState) (w : World) : Prop :=
  ∀ l, last_image st = Some l → is_Some (heap w !! l).

(** The previous frame of a state. *)
Definition previous_frame (st : PipelineState) (w : World) : option Image :=
  last_image st ≫= (fun l => heap w !! l).

Section verdicts.
Context {PIL : Pillow} {hash : Hashlib}.

(** The bitmap that the loop of [redact_regions] leaves, region after
    region, or the exception of the first box that [crop] refuses, for
    its order or for its size. *)
Fixpoint redact_data (im : Image) (regions : list Region) (blur_radius : Z)
    (fill_color : option (Z * Z * Z)) : exn + Image :=
  match regions with
  | [] => inr im
  | region :: rest =>
      if right region <? left region
      then inl (ValueError "Coordinate 'right' is less than 'left'")
      else if bottom region <? top region
      then inl (ValueError "Coordinate 'lower' is less than 'upper'")
      else
        match decompression_bomb_check (crop_pixels (region_box region)) with
        | Some e => inl e
        | None =>
            match paste_data im (patch im (region_box region) blur_radius fill_color)
                    (region_box region) with
            | inl e => inl e
            | inr im' => redact_data im' rest blur_radius fill_color
            end
        end
  end.

(** The way a tick takes through [process_frame]. *)
Inductive verdict : Type :=
  | Skip
  | CaptureFailed (e : exn)
  | Raised (e : exn)
  | NotSignificant
  | Duplicate
  | Analysed (im : Image) (payload : list Byte.byte) (mime : string)
             (result : exn + string).

Definition verdict_of (args : Args) (regions : list Region) (tick : Tick)
    (st : PipelineState) (w : World) : verdict :=
  if skips tick (window_keywords args) then Skip
  else
    match grab tick with
    | inl e => CaptureFailed e
    | inr captured =>
        match redact_data captured regions 25 (Some (0, 0, 0)) with
        | inl e => Raised e
        | inr im =>
            match change_decision im (previous_frame st w) 8 with
            | inl e => Raised e
            | inr false => NotSignificant
            | inr true =>
                match encode_result im (negb (no_webp args)) with
                | inl e => Raised e
                | inr (payload, mime) =>
                    if bool_decide
                         (last_payload_digest st = Some (compute_digest payload))
                    then Duplicate
                    else Analysed im payload mime
                           (respond tick (prompt args) payload mime)
                end
            end
        end
    end.

(** The calls of a tick after the window filter. *)
Definition verdict_events (args : Args) (tick : Tick) (st : PipelineState)
    (v : verdict) : list event :=
  match v with
  | Skip => [OverlayUpdated (Text "Waiting for target window…")]
  | CaptureFailed e =>
      [Captured (grab tick); OverlayUpdated (Formatted "Capture failed: " e)]
  | Raised _ | NotSignificant | Duplicate => [Captured (grab tick)]
  | Analysed _ payload mime result =>
      Captured (grab tick) :: Analyzed (prompt args) payload mime result ::
      match result with
      | inl e => [OverlayUpdated (Formatted "Analysis failed: " e)]
      | inr message =>
          if PyStr.truthy message && bool_decide (message ≠ last_message st)
          then [OverlayUpdated (Text message)] else []
      end
  end.

End verdicts.

(** ** Strings and bitmaps *)

(** A string that does not begin with white space. *)
Definition no_leading (sp : ascii → bool) (s : string) : Prop :=
  match s with
  | EmptyString => True
  | String c _ => sp c = false
  end.


(** * Properties *)

(** ** Computations only add to the trace *)

Lemma appends_ret {A} (a : A) : appends (ret a).
Proof. intros w. exists []. simpl. by rewrite app_nil_r. Qed.

Lemma appends_raise {A} (e : exn) : appends (@raise A e).
Proof. intros w. exists []. simpl. by rewrite app_nil_r. Qed.

Lemma appends_bind {A B} (m : M A) (k : A → M B) :
  appends m → (∀ a, appends (k a)) → appends (bind m k).
Proof.
  intros Hm Hk w. unfold bind. destruct (Hm w) as [evs1 H1].
  destruct (m w) as [[e|a] w1]; simpl in *.
  - by exists evs1.
  - destruct (Hk a w1) as [evs2 H2]. exists (evs1 ++ evs2).
    by rewrite H2, H1, app_assoc.
Qed.

Lemma appends_try_except {A} (m : M A) : appends m → appends (try_except m).
Proof.
  intros Hm w. unfold try_except. destruct (Hm w) as [evs Hevs].
  destruct (m w) as [r w1]. by exists evs.
Qed.

Lemma appends_load l : appends (load l).
Proof. intros w. exists []. unfold load. destruct (heap w !! l); simpl; by rewrite app_nil_r. Qed.

Lemma appends_store l im : appends (store l im).
Proof. intros w. exists []. simpl. by rewrite app_nil_r. Qed.

Lemma appends_alloc im : appends (alloc im).
Proof. intros w. exists []. simpl. by rewrite app_nil_r. Qed.

Lemma appends_emit ev : appends (emit ev).
Proof. intros w. by exists [ev]. Qed.

Create HintDb py_unfold.
#[global] Hint Unfold Image_copy Image_size Image_crop Image_new
  Image_filter_GaussianBlur Image_paste Image_thumbnail Image_save
  ImageChops_difference Image_histogram resize_image compress_image
  redact_regions has_significant_change get_active_window_title
  capture_frame analyze_frame update_text encode_frame should_skip_window
  : py_unfold.

Ltac appends_step :=
  first
    [ apply appends_ret | apply appends_raise | apply appends_load
    | apply appends_store | apply appends_alloc | apply appends_emit
    | apply appends_try_except
    | apply appends_bind; [| intros ?]
    | assumption
    | match goal with
      | |- appends (match ?x with _ => _ end) => destruct x
      | |- appends (let '(_, _) := ?x in _) => destruct x
      end ].

Ltac appends_tac := autounfold with py_unfold; repeat appends_step.

Lemma appends_redact_loop {PIL : Pillow} processed regions blur_radius fill_color :
  appends (redact_loop processed regions blur_radius fill_color).
Proof.
  induction regions as [|region rest IH]; simpl; appends_tac.
Qed.

Lemma appends_redact_regions {PIL : Pillow} image regions blur_radius fill_color :
  appends (redact_regions image regions blur_radius fill_color).
Proof.
  pose proof (appends_redact_loop) as Hloop.
  unfold redact_regions. appends_tac. apply Hloop.
Qed.

(** ** The window filter and the capture step *)

Lemma should_skip_window_events tick allowed_keywords w :
  ∃ skip evs,
    should_skip_window tick allowed_keywords w
    = (inr skip, mkWorld (heap w) (trace w ++ evs)) ∧
    Forall (fun ev => ¬ is_analysis ev) evs.
Proof.
  unfold should_skip_window, get_active_window_title, bind, emit, ret.
  destruct allowed_keywords as [|k ks]; simpl.
  - exists false, []. rewrite app_nil_r. by destruct w.
  - destruct (active_window_title tick); eexists _, [_]; split; try done;
      repeat constructor; by intros [].
Qed.

Section ticks.
Context {PIL : Pillow} {hash : Hashlib}.

(** C5. For every bitmap and every threshold, the change detector
    answers true when there is no previous frame: the first frame is
    always significant (and the world is left as it was). *)
Theorem first_frame_is_significant (current : nat) (threshold : R) (w : World) :
  has_significant_change current None threshold w = (inr true, w).
Proof. reflexivity. Qed.


(** C10. With a non-empty keyword list, when the window classifier
    returns no title the window filter does not skip the tick:
    [should_skip_window] answers false and the next call of
    [process_frame] is the capture. *)
Theorem untitled_window_is_not_skipped (args : Args) (regions : list Region)
    (tick : Tick) (st : PipelineState) (w : World) :
  window_keywords args ≠ [] →
  active_window_title tick = None →
  (should_skip_window tick (window_keywords args) w).1 = inr false ∧
  ∃ evs, trace (process_frame args regions tick st w).2
         = trace w ++ WindowTitleRead None :: Captured (grab tick) :: evs.
Proof.
  intros Hkw Htitle.
  assert (Hskip : should_skip_window tick (window_keywords args) w
                  = (inr false, mkWorld (heap w) (trace w ++ [WindowTitleRead None]))).
  { unfold should_skip_window, get_active_window_title, bind, emit, ret.
    destruct (window_keywords args); [done|]. simpl. by rewrite Htitle. }
  split; [by rewrite Hskip|].
  unfold process_frame. unfold bind at 1. rewrite Hskip.
  unfold bind at 1.
  assert (Hcap : ∃ r h, try_except (capture_frame tick)
                   (mkWorld (heap w) (trace w ++ [WindowTitleRead None]))
                 = (inr r, mkWorld h (trace w ++ [WindowTitleRead None; Captured (grab tick)]))).
  { unfold try_except, capture_frame, bind, emit, alloc, raise. simpl.
    rewrite <- app_assoc. simpl. destruct (grab tick); eauto. }
  destruct Hcap as (r & h & Hcap). rewrite Hcap.
  match goal with
  | |- ∃ evs, trace (?rest ?w2).2 = _ =>
      assert (Hrest : appends rest);
      [|destruct (Hrest w2) as [evs Hevs]; exists evs; rewrite Hevs;
        simpl; by rewrite <- app_assoc]
  end.
  pose proof (appends_redact_regions) as Hredact.
  destruct r as [exc|screenshot]; [appends_tac|].
  apply appends_bind; [destruct regions; [appends_tac | apply Hredact]|].
  intros shot. appends_tac.
Qed.

End ticks.

(** ** Pixels of crops, fills and pastes *)




Lemma paste_data_matches dst src b :
  b.1.2 - b.1.1.1 = width src → b.2 - b.1.1.2 = height src →
  ∃ dst', paste_data dst src b = inr dst'.
Proof.
  destruct b as [[[l t] r] d]. simpl. intros Hw Hh. unfold paste_data.
  rewrite <- Hw, <- Hh, !Z.eqb_refl. simpl. eauto.
Qed.

Lemma patch_size {PIL : Pillow} im b blur_radius fill_color :
  size (patch im b blur_radius fill_color)
  = (Z.max 0 (b.1.2 - b.1.1.1), Z.max 0 (b.2 - b.1.1.2)).
Proof. destruct b as [[[l t] r] d]. by destruct fill_color. Qed.


(** ** The heap during a redaction *)

Lemma fresh_is_new (h : gmap nat Image) : h !! fresh (dom h) = None.
Proof. apply not_elem_of_dom, is_fresh. Qed.

Lemma bind_returns {A B} (m : M A) (k : A → M B) w a w1 :
  m w = (inr a, w1) → bind m k w = k a w1.
Proof. intros Hm. unfold bind. by rewrite Hm. Qed.

Lemma bind_raises {A B} (m : M A) (k : A → M B) w e w1 :
  m w = (inl e, w1) → bind m k w = (inl e, w1).
Proof. intros Hm. unfold bind. by rewrite Hm. Qed.

Lemma load_returns l w im : heap w !! l = Some im → load l w = (inr im, w).
Proof. intros Hl. unfold load. by rewrite Hl. Qed.

Lemma Image_copy_returns image w im :
  heap w !! image = Some im →
  Image_copy image w
  = (inr (fresh (dom (heap w))),
     mkWorld (<[fresh (dom (heap w)) := im]> (heap w)) (trace w)).
Proof. intros Him. unfold Image_copy. by rewrite (bind_returns _ _ _ _ _ (load_returns _ _ _ Him)). Qed.

Lemma Image_size_returns image w im :
  heap w !! image = Some im → Image_size image w = (inr (size im), w).
Proof. intros Him. unfold Image_size. by rewrite (bind_returns _ _ _ _ _ (load_returns _ _ _ Him)). Qed.

Lemma decompression_bomb_check_passes pixels :
  pixels ≤ 2 * MAX_IMAGE_PIXELS → decompression_bomb_check pixels = None.
Proof.
  intros Hsmall. unfold decompression_bomb_check.
  by destruct (Z.ltb_spec (2 * MAX_IMAGE_PIXELS) pixels); [lia|].
Qed.

Lemma decompression_bomb_check_refuses pixels :
  2 * MAX_IMAGE_PIXELS < pixels →
  decompression_bomb_check pixels = Some (DecompressionBombError pixels).
Proof.
  intros Hlarge. unfold decompression_bomb_check.
  by destruct (Z.ltb_spec (2 * MAX_IMAGE_PIXELS) pixels); [|lia].
Qed.

Lemma Image_crop_returns image b w im :
  heap w !! image = Some im →
  b.1.1.1 ≤ b.1.2 → b.1.1.2 ≤ b.2 →
  crop_pixels b ≤ 2 * MAX_IMAGE_PIXELS →
  Image_crop image b w
  = (inr (fresh (dom (heap w))),
     mkWorld (<[fresh (dom (heap w)) := crop_data im b]> (heap w)) (trace w)).
Proof.
  destruct b as [[[l t] r] d]. simpl fst. simpl snd.
  intros Him Hlr Htd Hsmall. unfold Image_crop.
  replace (r <? l) with false by lia. replace (d <? t) with false by lia.
  rewrite (bind_returns _ _ _ _ _ (load_returns _ _ _ Him)).
  by rewrite (decompression_bomb_check_passes _ Hsmall).
Qed.

Lemma Image_crop_refuses image b w im :
  heap w !! image = Some im →
  b.1.1.1 ≤ b.1.2 → b.1.1.2 ≤ b.2 →
  2 * MAX_IMAGE_PIXELS < crop_pixels b →
  Image_crop image b w = (inl (DecompressionBombError (crop_pixels b)), w).
Proof.
  destruct b as [[[l t] r] d]. simpl fst. simpl snd.
  intros Him Hlr Htd Hlarge. unfold Image_crop.
  replace (r <? l) with false by lia. replace (d <? t) with false by lia.
  rewrite (bind_returns _ _ _ _ _ (load_returns _ _ _ Him)).
  by rewrite (decompression_bomb_check_refuses _ Hlarge).
Qed.

Lemma Image_new_returns sz color w :
  0 ≤ sz.1 → 0 ≤ sz.2 →
  Image_new sz color w
  = (inr (fresh (dom (heap w))),
     mkWorld (<[fresh (dom (heap w)) := fill_data sz color]> (heap w)) (trace w)).
Proof.
  intros Hw Hh. unfold Image_new.
  replace (sz.1 <? 0) with false by lia. by replace (sz.2 <? 0) with false by lia.
Qed.

Lemma Image_filter_GaussianBlur_returns {PIL : Pillow} image radius w im :
  heap w !! image = Some im →
  Image_filter_GaussianBlur image radius w
  = (inr (fresh (dom (heap w))),
     mkWorld (<[fresh (dom (heap w)) :=
                  mkImage (width im) (height im)
                    (grid (width im) (height im) (GaussianBlur_pixel radius im))]>
                (heap w)) (trace w)).
Proof.
  intros Him. unfold Image_filter_GaussianBlur.
  by rewrite (bind_returns _ _ _ _ _ (load_returns _ _ _ Him)).
Qed.

Lemma Image_paste_returns image source b w dst src dst' :
  heap w !! source = Some src → heap w !! image = Some dst →
  paste_data dst src b = inr dst' →
  Image_paste image source b w
  = (inr tt, mkWorld (<[image := dst']> (heap w)) (trace w)).
Proof.
  intros Hsrc Hdst Hpaste. unfold Image_paste.
  rewrite (bind_returns _ _ _ _ _ (load_returns _ _ _ Hsrc)).
  rewrite (bind_returns _ _ _ _ _ (load_returns _ _ _ Hdst)).
  by rewrite Hpaste.
Qed.

Lemma redact_loop_unfold {PIL : Pillow} processed region rest blur_radius fill_color :
  redact_loop processed (region :: rest) blur_radius fill_color
  = (crop <- Image_crop processed (region_box region) ;;
     crop <- match fill_color with
             | None => Image_filter_GaussianBlur crop blur_radius
             | Some color => sz <- Image_size crop ;; Image_new sz color
             end ;;
     Image_paste processed crop (region_box region) ;;;
     redact_loop processed rest blur_radius fill_color).
Proof. reflexivity. Qed.

Lemma redact_loop_cons {PIL : Pillow} processed region rest blur_radius fill_color w acc :
  heap w !! processed = Some acc →
  left region ≤ right region → top region ≤ bottom region →
  Region_croppable region →
  ∃ w1 acc1,
    redact_loop processed (region :: rest) blur_radius fill_color w
    = redact_loop processed rest blur_radius fill_color w1 ∧
    paste_data acc (patch acc (region_box region) blur_radius fill_color)
      (region_box region) = inr acc1 ∧
    heap w1 !! processed = Some acc1 ∧
    (∀ l v, l ≠ processed → heap w !! l = Some v → heap w1 !! l = Some v) ∧
    trace w1 = trace w.
Proof.
  intros Hacc Hlr Htb Hsmall.
  pose proof (patch_size acc (region_box region) blur_radius fill_color) as Hs.
  unfold size in Hs. simpl in Hs. injection Hs as Hw Hh.
  destruct (paste_data_matches acc
              (patch acc (region_box region) blur_radius fill_color)
              (region_box region)) as [acc1 Hpaste];
    [simpl; lia | simpl; lia |].
  set (b := region_box region) in *.
  set (l1 := fresh (dom (heap w))).
  set (h1 := <[l1 := crop_data acc b]> (heap w)).
  set (l2 := fresh (dom h1)).
  set (h2 := <[l2 := patch acc b blur_radius fill_color]> h1).
  assert (Hl1 : heap w !! l1 = None) by apply fresh_is_new.
  assert (Hl2 : h1 !! l2 = None) by apply fresh_is_new.
  assert (Hp1 : h1 !! processed = Some acc).
  { unfold h1. rewrite lookup_insert_ne; [done|congruence]. }
  assert (Hp2 : h2 !! processed = Some acc).
  { unfold h2. rewrite lookup_insert_ne; [done|congruence]. }
  exists (mkWorld (<[processed := acc1]> h2) (trace w)), acc1.
  split; [|split; [done|split; [apply lookup_insert_eq|split; [|done]]]].
  - rewrite redact_loop_unfold. fold b.
    erewrite bind_returns; [|by apply Image_crop_returns].
    fold l1 h1.
    assert (Hpatch :
      match fill_color with
      | Some color => sz <- Image_size l1;; Image_new sz color
      | None => Image_filter_GaussianBlur l1 blur_radius
      end (mkWorld h1 (trace w)) = (inr l2, mkWorld h2 (trace w))).
    { unfold h2, patch. destruct fill_color as [color|].
      - rewrite (bind_returns _ _ _ _ _
                   (Image_size_returns l1 (mkWorld h1 (trace w)) (crop_data acc b)
                      (lookup_insert_eq _ _ _))).
        apply (Image_new_returns _ _ (mkWorld h1 (trace w)));
          unfold b, region_box; simpl; lia.
      - apply (Image_filter_GaussianBlur_returns l1 blur_radius
                 (mkWorld h1 (trace w)) (crop_data acc b)), lookup_insert_eq. }
    erewrite bind_returns; [|exact Hpatch].
    erewrite bind_returns; [done|].
    apply (Image_paste_returns processed l2 b (mkWorld h2 (trace w)) acc
             (patch acc b blur_radius fill_color) acc1);
      [apply lookup_insert_eq|exact Hp2|exact Hpaste].
  - intros l v Hne Hl. simpl.
    rewrite lookup_insert_ne by done.
    unfold h2, h1. rewrite !lookup_insert_ne; [done|congruence|].
    intros <-. fold h1 in Hl2. unfold h1 in Hl2.
    destruct (decide (l1 = l2)) as [Heq|Hne']; [|rewrite lookup_insert_ne in Hl2; congruence].
    rewrite <- Heq, lookup_insert_eq in Hl2. done.
Qed.

#[global] Arguments in_box : simpl never.
#[global] Arguments region_box : simpl never.
#[global] Arguments patch : simpl never.
#[global] Arguments pixel_at : simpl never.

Lemma redact_loop_frame {PIL : Pillow} processed regions blur_radius fill_color :
  ∀ w acc, heap w !! processed = Some acc →
    ∀ l v, l ≠ processed → heap w !! l = Some v →
      heap (redact_loop processed regions blur_radius fill_color w).2 !! l = Some v.
Proof.
  induction regions as [|region rest IH]; intros w acc Hacc l v Hne Hl; [done|].
  destruct (decide (left region ≤ right region ∧ top region ≤ bottom region))
    as [[Hlr Htb]|Hbad].
  - destruct (Z.le_gt_cases (crop_pixels (region_box region)) (2 * MAX_IMAGE_PIXELS))
      as [Hsmall|Hlarge].
    + destruct (redact_loop_cons processed region rest blur_radius fill_color w acc
                  Hacc Hlr Htb Hsmall) as (w1 & acc1 & -> & _ & Hacc1 & Hframe & _).
      eapply IH; eauto.
    + rewrite redact_loop_unfold.
      by rewrite (bind_raises _ _ _ _ _
                    (Image_crop_refuses processed (region_box region) w acc
                       Hacc Hlr Htb Hlarge)).
  - rewrite redact_loop_unfold. unfold Image_crop, region_box.
    destruct (Z.ltb_spec (right region) (left region)); [done|].
    destruct (Z.ltb_spec (bottom region) (top region)); [done|]. lia.
Qed.



(** ** Redaction *)

Section redaction.
Context {PIL : Pillow}.


End redaction.

Section clipping.
Context {PIL : Pillow}.


End clipping.



(** ** Parsing of the region configuration *)

Lemma int_each_returns parts zs :
  int_each parts = inr zs ↔ PyStr.int <$> parts = Some <$> zs.
Proof.
  revert zs. induction parts as [|part rest IH]; intros zs; simpl.
  - split; [intros [= <-]; done|]. destruct zs; [done|discriminate].
  - destruct (PyStr.int part) as [z|] eqn:Hint.
    + destruct (int_each rest) as [e|zs'] eqn:Hrest.
      * split; [done|]. destruct zs as [|z' zs]; [done|]. simpl. intros [= -> Hzs].
        apply IH in Hzs. discriminate.
      * split.
        -- intros [= <-]. simpl. f_equal. by apply IH.
        -- destruct zs as [|z' zs]; [done|]. simpl. intros [= -> Hzs].
           apply IH in Hzs. congruence.
    + split; [done|]. destruct zs; discriminate.
Qed.

Lemma int_each_raises parts e :
  int_each parts = inl e ↔
  ∃ before part after,
    parts = before ++ part :: after ∧
    Forall (fun p => is_Some (PyStr.int p)) before ∧
    PyStr.int part = None ∧ e = IntLiteralError part.
Proof.
  revert e. induction parts as [|part rest IH]; intros e; simpl.
  - split; [done|]. intros (before & p & after & Heq & _). by destruct before.
  - destruct (PyStr.int part) as [z|] eqn:Hint.
    + destruct (int_each rest) as [e'|zs'] eqn:Hrest.
      * split.
        -- intros [= <-]. destruct (proj1 (IH e') eq_refl)
             as (before & p & after & -> & Hbefore & Hp & ->).
           exists (part :: before), p, after. repeat split; try done.
           constructor; [by rewrite Hint|done].
        -- intros (before & p & after & Heq & Hbefore & Hp & ->).
           destruct before as [|q before]; simpl in Heq; injection Heq as -> ->.
           ++ congruence.
           ++ apply Forall_cons in Hbefore as [_ Hbefore].
              f_equal. symmetry.
              assert (inl e' = inl (IntLiteralError p) :> exn + list Z) as [= ->];
                [|done].
              apply IH. by exists before, p, after.
      * split; [done|].
        intros (before & p & after & Heq & Hbefore & Hp & ->).
        destruct before as [|q before]; simpl in Heq; injection Heq as -> ->.
        -- congruence.
        -- apply Forall_cons in Hbefore as [_ Hbefore].
           assert (inr zs' = inl (IntLiteralError p) :> exn + list Z); [|done].
           apply IH. by exists before, p, after.
    + split.
      * intros [= <-]. by exists [], part, rest.
      * intros (before & p & after & Heq & Hbefore & Hp & ->).
        destruct before as [|q before]; simpl in Heq; injection Heq as -> ->; [done|].
        apply Forall_cons in Hbefore as [[z Hz] _]. congruence.
Qed.

Lemma read_group_returns group region :
  read_group group = inr region ↔ group_region group region.
Proof.
  unfold read_group, group_region, Region_valid.
  destruct (int_each (kept_parts group)) as [e|coords] eqn:Hcoords.
  - split; [done|]. intros [Hints _].
    assert (int_each (kept_parts group)
            = inr [left region; top region; right region; bottom region])
      by by apply int_each_returns.
    congruence.
  - apply int_each_returns in Hcoords. rewrite Hcoords. split.
    + destruct coords as [|l [|t [|r [|b [|]]]]]; try done. simpl.
      destruct (Z.leb_spec r l), (Z.leb_spec b t); try done.
      intros [= <-]. simpl. split; [done|lia].
    + intros [Hints [Hlr Htb]].
      destruct coords as [|l [|t [|r [|b [|]]]]]; try done.
      injection Hints as -> -> -> ->. simpl.
      destruct (Z.leb_spec (right region) (left region)); [lia|].
      destruct (Z.leb_spec (bottom region) (top region)); [lia|].
      by destruct region.
Qed.

Lemma read_group_raises group e :
  group_error group e → read_group group = inl e.
Proof.
  unfold read_group. intros [before part after Hparts Hbefore Hpart
                            |coords Hints Hlen
                            |l t r b Hints Hdeg].
  - assert (int_each (kept_parts group) = inl (IntLiteralError part)) as ->; [|done].
    apply int_each_raises. by exists before, part, after.
  - apply int_each_returns in Hints. rewrite Hints.
    by destruct coords as [|? [|? [|? [|? [|]]]]].
  - assert (int_each (kept_parts group) = inr [l; t; r; b]) as ->
      by by apply int_each_returns.
    simpl. destruct (Z.leb_spec r l), (Z.leb_spec b t); try done. lia.
Qed.

Lemma parse_chunks_read chunks regions :
  parse_chunks chunks regions
  = match chunks with
    | [] => inr regions
    | chunk :: rest =>
        if PyStr.truthy (PyStr.strip chunk)
        then match read_group (PyStr.strip chunk) with
             | inl e => inl e
             | inr region => parse_chunks rest (regions ++ [region])
             end
        else parse_chunks rest regions
    end.
Proof.
  destruct chunks as [|chunk rest]; [done|]. simpl. unfold read_group.
  destruct (PyStr.truthy (PyStr.strip chunk)); simpl; [|done].
  by destruct (int_each (kept_parts (PyStr.strip chunk))).
Qed.

Lemma parse_chunks_returns chunks : ∀ regions found,
  parse_chunks chunks regions = inr found ↔
  ∃ new, found = regions ++ new ∧
         Forall2 group_region (List.filter PyStr.truthy (PyStr.strip <$> chunks)) new.
Proof.
  induction chunks as [|chunk rest IH]; intros regions found;
    rewrite parse_chunks_read.
  - simpl. split.
    + intros [= <-]. exists []. by rewrite app_nil_r.
    + intros (new & -> & Hnew). apply Forall2_nil_inv_l in Hnew as ->.
      by rewrite app_nil_r.
  - simpl. destruct (PyStr.truthy (PyStr.strip chunk)); [|apply IH].
    destruct (read_group (PyStr.strip chunk)) as [e|region] eqn:Hread.
    + split; [done|]. intros (new & -> & Hnew).
      apply Forall2_cons_inv_l in Hnew as (region & new' & Hregion & _ & ->).
      apply read_group_returns in Hregion. congruence.
    + rewrite IH. split.
      * intros (new & -> & Hnew). exists (region :: new).
        split; [by rewrite <- app_assoc|].
        constructor; [by apply read_group_returns|done].
      * intros (new & -> & Hnew).
        apply Forall2_cons_inv_l in Hnew as (region' & new' & Hregion & Hnew' & ->).
        apply read_group_returns in Hregion.
        assert (region' = region) as -> by congruence.
        exists new'. by rewrite <- app_assoc.
Qed.

Lemma parse_chunks_raises chunks : ∀ regions before group after e,
  List.filter PyStr.truthy (PyStr.strip <$> chunks) = before ++ group :: after →
  Forall (fun g => ∃ region, group_region g region) before →
  group_error group e →
  parse_chunks chunks regions = inl e.
Proof.
  induction chunks as [|chunk rest IH]; intros regions before group after e Hgroups
    Hbefore Herror; rewrite parse_chunks_read.
  - by destruct before.
  - simpl in Hgroups. destruct (PyStr.truthy (PyStr.strip chunk)); [|by eapply IH].
    destruct before as [|g before]; simpl in Hgroups; injection Hgroups as -> Hrest.
    + by rewrite (read_group_raises _ _ Herror).
    + apply Forall_cons in Hbefore as [[region Hregion] Hbefore].
      apply read_group_returns in Hregion. rewrite Hregion. by eapply IH.
Qed.

Lemma nonblank_groups_of_empty config :
  PyStr.truthy config = false → nonblank_groups config = [].
Proof. by destruct config. Qed.

Lemma read_group_raises_inv group e :
  read_group group = inl e → group_error group e.
Proof.
  unfold read_group.
  destruct (int_each (kept_parts group)) as [e'|coords] eqn:Hcoords.
  - intros [= ->]. apply int_each_raises in Hcoords
      as (before & part & after & Hparts & Hbefore & Hpart & ->).
    by eapply NotAnInteger.
  - apply int_each_returns in Hcoords.
    destruct coords as [|l [|t [|r [|b [|extra more]]]]]; simpl;
      try (intros [= <-]; by eapply WrongFieldCount).
    destruct (Z.leb_spec r l); simpl.
    + intros [= <-]. eapply DegenerateRectangle; [exact Hcoords|lia].
    + destruct (Z.leb_spec b t); simpl; [|done].
      intros [= <-]. eapply DegenerateRectangle; [exact Hcoords|lia].
Qed.

(** Among groups of which one is refused there is a first refused one. *)
Lemma first_refused_group (groups : list string) :
  Exists (fun g => ∃ e, group_error g e) groups →
  ∃ before group after e,
    groups = before ++ group :: after ∧
    Forall (fun g => ∃ region, group_region g region) before ∧
    group_error group e.
Proof.
  induction groups as [|g groups IH]; intros Hbad; [by apply Exists_nil in Hbad|].
  destruct (read_group g) as [e|region] eqn:Hread.
  - exists [], g, groups, e. split; [done|]. split; [constructor|].
    by apply read_group_raises_inv.
  - apply Exists_cons in Hbad as [[e He]|Hbad].
    { apply read_group_raises in He. congruence. }
    destruct (IH Hbad) as (before & group & after & e & -> & Hbefore & He).
    exists (g :: before), group, after, e. split; [done|]. split; [|done].
    constructor; [|done]. exists region. by apply read_group_returns.
Qed.

(** C3 (amended). For every region-spec string, [parse_region_config]
    returns a list of regions exactly when every group that is not blank,
    once its blank tokens are dropped, consists of exactly four integer
    tokens that form a non-degenerate rectangle, the regions being those
    of the groups in order; the first group that has a token that is no
    integer, a number of tokens other than four, or a degenerate
    rectangle makes it raise the exception that tells this reason; and
    whenever some group is refused in one of these ways, the parse raises
    the exception of a refused group. *)
Theorem parse_region_config_outcome (config : string) :
  (∀ regions,
     parse_region_config (Some config) = inr regions ↔
     Forall2 group_region (nonblank_groups config) regions) ∧
  (∀ before group after e,
     nonblank_groups config = before ++ group :: after →
     Forall (fun g => ∃ region, group_region g region) before →
     group_error group e →
     parse_region_config (Some config) = inl e) ∧
  (Exists (fun g => ∃ e, group_error g e) (nonblank_groups config) →
   ∃ group e,
     group ∈ nonblank_groups config ∧ group_error group e ∧
     parse_region_config (Some config) = inl e).
Proof.
  assert (Hfirst : ∀ before group after e,
     nonblank_groups config = before ++ group :: after →
     Forall (fun g => ∃ region, group_region g region) before →
     group_error group e →
     parse_region_config (Some config) = inl e).
  { unfold parse_region_config.
    destruct (PyStr.truthy config) eqn:Hconfig; simpl.
    - intros before group after e. apply parse_chunks_raises.
    - rewrite (nonblank_groups_of_empty _ Hconfig).
      intros before group after e Hgroups. by destruct before. }
  split; [|split; [done|]].
  - unfold parse_region_config.
    destruct (PyStr.truthy config) eqn:Hconfig; simpl.
    + intros regions. rewrite parse_chunks_returns. split.
      * by intros (new & -> & Hnew).
      * intros Hall. by exists regions.
    + rewrite (nonblank_groups_of_empty _ Hconfig). intros regions. split.
      * intros [= <-]. constructor.
      * intros Hall. by apply Forall2_nil_inv_l in Hall as ->.
  - intros Hbad.
    destruct (first_refused_group _ Hbad) as (before & group & after & e & Hgroups & Hbefore & He).
    exists group, e. split; [|split; [done|by eapply Hfirst]].
    rewrite Hgroups. apply elem_of_app. right. left.
Qed.

(** The three refusals at work: a token that is no integer, three tokens,
    and a rectangle without width. *)
Example parse_refusals :
  parse_region_config (Some "0,0,10,10;1,x,3,4"%string) = inl (IntLiteralError "x") ∧
  parse_region_config (Some "0,0,10"%string)
  = inl (ValueError "Region requires four integers: left, top, right, bottom") ∧
  parse_region_config (Some "5,0,5,10"%string)
  = inl (ValueError "Invalid region dimensions") ∧
  parse_region_config (Some " 0,0,10,10 ; 5, 5 ,20,20;"%string)
  = inr [mkRegion 0 0 10 10; mkRegion 5 5 20 20].
Proof. repeat split. Qed.

(** C3, as stated, fails: the group of "0,0,,10,10" splits at its commas
    into five tokens, the third of which is no integer, and the
    configuration is parsed into one region. *)
Lemma blank_token_is_not_refused :
  PyStr.split "," "0,0,,10,10" = ["0"; "0"; ""; "10"; "10"]%string ∧
  PyStr.int "" = None ∧
  parse_region_config (Some "0,0,,10,10"%string) = inr [mkRegion 0 0 10 10].
Proof. repeat split. Qed.

(** ** Sums over histograms and over pixels *)

Lemma Zsum_app xs ys : Zsum (xs ++ ys) = Zsum xs + Zsum ys.
Proof. unfold Zsum. induction xs as [|x xs IH]; simpl; lia. Qed.

Lemma Zsum_fmap_add {A} (f g : A → Z) (l : list A) :
  Zsum ((fun a => f a + g a) <$> l) = Zsum (f <$> l) + Zsum (g <$> l).
Proof. unfold Zsum. induction l as [|a l IH]; csimpl; lia. Qed.

Lemma Zsum_fmap_zero {A} (f : A → Z) (l : list A) :
  (∀ a, a ∈ l → f a = 0) → Zsum (f <$> l) = 0.
Proof.
  unfold Zsum. induction l as [|a l IH]; intros Hf; csimpl; [done|].
  rewrite Hf by left. rewrite IH; [done|]. intros b Hb. apply Hf. by right.
Qed.

(** Over a list without repetition, the sum that selects the index [v]
    is the term at [v]. *)
Lemma Zsum_select (F : Z → Z) (v : Z) (l : list Z) :
  NoDup l →
  Zsum ((fun i => (if v =? i then 1 else 0) * F i) <$> l)
  = if bool_decide (v ∈ l) then F v else 0.
Proof.
  induction 1 as [|i l Hi Hl IH]; [done|].
  change (Zsum ((fun i => (if v =? i then 1 else 0) * F i) <$> i :: l))
    with ((if v =? i then 1 else 0) * F i
          + Zsum ((fun i => (if v =? i then 1 else 0) * F i) <$> l)).
  rewrite IH. destruct (Z.eqb_spec v i) as [->|Hne].
  - rewrite (bool_decide_eq_true_2 (i ∈ i :: l)) by left.
    rewrite (bool_decide_eq_false_2 (i ∈ l)) by done. lia.
  - destruct (decide (v ∈ l)) as [Hin|Hnin].
    + rewrite (bool_decide_eq_true_2 (v ∈ i :: l)) by by right.
      rewrite (bool_decide_eq_true_2 (v ∈ l)) by done. lia.
    + rewrite (bool_decide_eq_false_2 (v ∈ i :: l))
        by (intros [?|?]%elem_of_cons; done).
      rewrite (bool_decide_eq_false_2 (v ∈ l)) by done. lia.
Qed.

Lemma Z_of_byte_range (s : Byte.byte) : 0 ≤ Z_of_byte s < 256.
Proof. unfold Z_of_byte. pose proof (Byte.to_N_bounded s). lia. Qed.

Lemma Z_of_byte_of_Z (z : Z) : 0 ≤ z < 256 → Z_of_byte (byte_of_Z z) = z.
Proof.
  intros Hz. unfold Z_of_byte, byte_of_Z.
  destruct (Byte.of_N (Z.to_N z)) as [b|] eqn:Hb.
  - simpl. apply Byte.to_of_N in Hb. lia.
  - apply Byte.of_N_None_iff in Hb. lia.
Qed.

(** The weighted sum of the counts of one band is the sum of the squares
    of its samples, wherever the band stands in the histogram. *)
Lemma count_of_cons s samples i :
  count_of (s :: samples) i
  = (if Z_of_byte s =? i then 1 else 0) + count_of samples i.
Proof.
  unfold count_of. simpl. destruct (Z_of_byte s =? i); simpl length; lia.
Qed.

Lemma sum_of_squares_cons s samples :
  sum_of_squares (s :: samples) = Z_of_byte s ^ 2 + sum_of_squares samples.
Proof. reflexivity. Qed.

Lemma counts_squares (samples : list Byte.byte) :
  Zsum ((fun i => count_of samples i * i ^ 2) <$> seqZ 0 256)
  = sum_of_squares samples.
Proof.
  induction samples as [|s samples IH].
  - by apply Zsum_fmap_zero.
  - rewrite sum_of_squares_cons, <- IH.
    pose proof (Zsum_select (fun i => i ^ 2) (Z_of_byte s) (seqZ 0 256)
                  (NoDup_seqZ _ _)) as Hsel.
    rewrite bool_decide_eq_true_2 in Hsel
      by (apply elem_of_seqZ; pose proof (Z_of_byte_range s); lia).
    rewrite <- Hsel, <- Zsum_fmap_add. f_equal. apply list_fmap_ext.
    intros _ i _. rewrite count_of_cons. lia.
Qed.

(** The weighted sum of the counts of one band is the sum of the squares
    of its samples, wherever the band stands in the histogram. *)
Lemma band_histogram_squares (samples : list Byte.byte) (offset : nat) :
  Z.of_nat offset mod 256 = 0 →
  Zsum (imap (fun idx value => value * (Z.of_nat (offset + idx) mod 256) ^ 2)
          (band_histogram samples))
  = sum_of_squares samples.
Proof.
  intros Hoffset. rewrite <- counts_squares.
  unfold band_histogram. rewrite imap_fmap. fold (count_of samples).
  rewrite (imap_ext _ (const (fun i => count_of samples i * i ^ 2))).
  - by rewrite imap_const.
  - intros idx i Hi. apply lookup_seqZ in Hi as [-> Hidx].
    unfold compose, const. do 2 f_equal.
    rewrite Nat2Z.inj_add, <- Zplus_mod_idemp_l, Hoffset.
    rewrite Z.mod_small; lia.
Qed.

Lemma length_band_histogram samples :
  Z.of_nat (length (band_histogram samples)) = 256.
Proof. unfold band_histogram. rewrite length_fmap, length_seqZ. lia. Qed.

Lemma bands_energy (ps : list pixel) :
  sum_of_squares (red <$> ps) + sum_of_squares (green <$> ps)
  + sum_of_squares (blue <$> ps)
  = Zsum (energy <$> ps).
Proof.
  induction ps as [|p ps IH]; [done|].
  rewrite !fmap_cons, !sum_of_squares_cons.
  change (Zsum (energy p :: (energy <$> ps))) with (energy p + Zsum (energy <$> ps)).
  unfold energy at 1. lia.
Qed.

(** The sum that the change detector draws from the histogram of an
    image is the sum, over its pixels, of the squares of the three
    samples. *)
Lemma sum_squares_histogram (im : Image) :
  sum_squares (histogram_data im) = Zsum (energy <$> pixels im).
Proof.
  unfold sum_squares, histogram_data.
  rewrite !imap_app, !Zsum_app, <- bands_energy.
  pose proof (length_band_histogram (red <$> pixels im)) as Hred.
  pose proof (length_band_histogram (green <$> pixels im)) as Hgreen.
  rewrite Z.add_assoc. f_equal; [f_equal|].
  - apply (band_histogram_squares _ 0). done.
  - apply band_histogram_squares. by rewrite Hred.
  - rewrite <- (band_histogram_squares (blue <$> pixels im)
                 (length (band_histogram (red <$> pixels im))
                  + length (band_histogram (green <$> pixels im)))).
    + apply (f_equal Zsum), imap_ext. intros idx v _. cbv beta.
      by rewrite Nat.add_assoc.
    + rewrite Nat2Z.inj_add, Hred, Hgreen. done.
Qed.

(** ** The difference image, pixel by pixel *)

Lemma sample_difference_value a b :
  Z_of_byte (sample_difference a b) = Z.abs (Z_of_byte a - Z_of_byte b).
Proof.
  unfold sample_difference. apply Z_of_byte_of_Z.
  pose proof (Z_of_byte_range a). pose proof (Z_of_byte_range b). lia.
Qed.

Lemma energy_pixel_difference p q :
  energy (pixel_difference p q) = squared_difference p q.
Proof.
  destruct p as [[r1 g1] b1], q as [[r2 g2] b2].
  unfold energy, squared_difference, pixel_difference, red, green, blue. simpl.
  by rewrite !sample_difference_value.
Qed.

Lemma wf_pixel_at im x y :
  wf_image im → 0 ≤ x < width im → 0 ≤ y < height im →
  is_Some (pixel_at im x y).
Proof.
  intros [Hheight Hwidth] Hx Hy. unfold pixel_at.
  replace (0 <=? x) with true by lia. replace (0 <=? y) with true by lia. simpl.
  destruct (lookup_lt_is_Some_2 (rows im) (Z.to_nat y)) as [row Hrow]; [lia|].
  rewrite Hrow. simpl. apply lookup_lt_is_Some_2.
  rewrite Forall_forall in Hwidth.
  specialize (Hwidth row (list_elem_of_lookup_2 _ _ _ Hrow)). lia.
Qed.

Lemma wf_rows_grid im :
  wf_image im →
  rows im = grid (width im) (height im) (fun x y => default black (pixel_at im x y)).
Proof.
  intros Hwf. pose proof Hwf as [Hheight Hwidth].
  apply list_eq. intros i. unfold grid. rewrite list_lookup_fmap.
  destruct (decide (Z.of_nat i < height im)) as [Hi|Hi].
  - rewrite lookup_seqZ_lt by done. simpl.
    destruct (lookup_lt_is_Some_2 (rows im) i) as [row Hrow]; [lia|].
    rewrite Hrow. f_equal.
    rewrite Forall_forall in Hwidth.
    specialize (Hwidth row (list_elem_of_lookup_2 _ _ _ Hrow)).
    apply list_eq. intros j. rewrite list_lookup_fmap.
    destruct (decide (Z.of_nat j < width im)) as [Hj|Hj].
    + rewrite lookup_seqZ_lt by done. simpl.
      unfold pixel_at. rewrite !Z.add_0_l.
      replace (0 <=? Z.of_nat j) with true by lia.
      replace (0 <=? Z.of_nat i) with true by lia. simpl.
      rewrite !Nat2Z.id, Hrow. simpl.
      destruct (lookup_lt_is_Some_2 row j) as [p Hp]; [lia|]. by rewrite Hp.
    + rewrite lookup_seqZ_ge by lia. simpl. apply lookup_ge_None_2. lia.
  - rewrite lookup_seqZ_ge by lia. simpl. apply lookup_ge_None_2. lia.
Qed.

Lemma Zsum_fmap_concat {A} (f : A → Z) (ls : list (list A)) :
  Zsum (f <$> concat ls) = Zsum ((fun l => Zsum (f <$> l)) <$> ls).
Proof.
  induction ls as [|l ls IH]; [done|].
  csimpl. rewrite fmap_app, Zsum_app, IH. done.
Qed.

(** The sum over the pixels of the difference image is the sum, over all
    positions, of the squared differences of the two images. *)
Lemma difference_energy (current previous : Image) :
  wf_image current → wf_image previous → size current = size previous →
  Zsum (energy <$> pixels (difference_data current previous))
  = direct_sum_squares current previous.
Proof.
  intros Hcur Hprev Hsize. injection Hsize as Hw Hh.
  unfold pixels, difference_data, direct_sum_squares. simpl rows.
  rewrite (wf_rows_grid current Hcur), (wf_rows_grid previous Hprev), <- Hw, <- Hh.
  unfold grid. rewrite zip_with_fmap_l, zip_with_fmap_r, zip_with_diag.
  rewrite Zsum_fmap_concat, <- list_fmap_compose.
  f_equal. apply list_fmap_ext. intros _ y Hy%list_elem_of_lookup_2%elem_of_seqZ.
  unfold compose.
  rewrite zip_with_fmap_l, zip_with_fmap_r, zip_with_diag, <- list_fmap_compose.
  f_equal. apply list_fmap_ext. intros _ x Hx%list_elem_of_lookup_2%elem_of_seqZ.
  unfold compose. rewrite energy_pixel_difference.
  destruct (wf_pixel_at current x y Hcur) as [p ->]; [lia..|].
  destruct (wf_pixel_at previous x y Hprev) as [q ->]; [lia..|].
  done.
Qed.

(** ** The change detector *)

Lemma has_significant_change_runs (w : World) (current previous : nat)
    (cur prev : Image) (threshold : R) :
  heap w !! current = Some cur → heap w !! previous = Some prev →
  has_significant_change current (Some previous) threshold w
  = (match histogram_rms cur prev with
     | inl e => inl e
     | inr rms => inr (Rgeb rms threshold)
     end,
     mkWorld (<[fresh (dom (heap w)) := difference_data cur prev]> (heap w)) (trace w)).
Proof.
  intros Hcur Hprev.
  pose proof (fresh_is_new (heap w)) as Hnew.
  assert (Hne : fresh (dom (heap w)) ≠ current) by congruence.
  unfold has_significant_change, histogram_rms, ImageChops_difference,
    Image_histogram, Image_size, bind, load, alloc, ret, raise.
  rewrite Hcur, Hprev. cbn [heap trace].
  rewrite lookup_insert_eq. cbn [heap trace].
  rewrite lookup_insert_ne, Hcur by done.
  unfold size. cbn [fst snd]. by destruct (root_mean _ _).
Qed.

(** C4. For every pair of well-formed RGB bitmaps of the same size, the
    root mean square that the change detector draws from the 768 counts
    of the histogram of the difference image equals the direct
    root mean square over all pixels and channels, and the answer of
    [has_significant_change] is the comparison of that direct value with
    the threshold. *)
Theorem histogram_rms_is_direct_rms (cur prev : Image) :
  wf_image cur → wf_image prev → size cur = size prev →
  histogram_rms cur prev = direct_rms cur prev ∧
  ∀ (w : World) (current previous : nat) (threshold : R),
    heap w !! current = Some cur → heap w !! previous = Some prev →
    (has_significant_change current (Some previous) threshold w).1
    = match direct_rms cur prev with
      | inl e => inl e
      | inr rms => inr (Rgeb rms threshold)
      end.
Proof.
  intros Hcur Hprev Hsize.
  assert (Heq : histogram_rms cur prev = direct_rms cur prev).
  { unfold histogram_rms, direct_rms, root_mean.
    by rewrite sum_squares_histogram, difference_energy. }
  split; [done|].
  intros w current previous threshold Hc Hp.
  by rewrite (has_significant_change_runs w current previous cur prev threshold Hc Hp), Heq.
Qed.

Lemma squared_difference_same p : squared_difference p p = 0.
Proof. unfold squared_difference. rewrite !Z.sub_diag. done. Qed.

Lemma difference_with_itself (im : Image) :
  sum_squares (histogram_data (difference_data im im)) = 0.
Proof.
  rewrite sum_squares_histogram. unfold pixels, difference_data. simpl rows.
  rewrite zip_with_diag, Zsum_fmap_concat.
  apply Zsum_fmap_zero. intros l (row & -> & _)%list_elem_of_fmap.
  rewrite zip_with_diag. apply Zsum_fmap_zero.
  intros a (p & -> & _)%list_elem_of_fmap.
  by rewrite energy_pixel_difference, squared_difference_same.
Qed.

(** C6 (amended). For every bitmap that has at least one pixel and every
    threshold above zero, the change detector answers false when the
    bitmap is compared with itself: the root mean square is exactly 0. *)
Theorem same_frame_is_not_significant (w : World) (x : nat) (im : Image)
    (threshold : R) :
  heap w !! x = Some im →
  width im * height im ≠ 0 →
  (0 < threshold)%R →
  histogram_rms im im = inr 0%R ∧
  (has_significant_change x (Some x) threshold w).1 = inr false.
Proof.
  intros Hx Hsize Hthreshold.
  assert (Hrms : histogram_rms im im = inr 0%R).
  { unfold histogram_rms, root_mean. rewrite difference_with_itself.
    destruct (Z.eqb_spec (width im * height im * 3) 0) as [Hzero|_]; [lia|].
    f_equal. unfold Rdiv. by rewrite Rmult_0_l, sqrt_0. }
  split; [done|].
  rewrite (has_significant_change_runs w x x im im threshold Hx Hx), Hrms. simpl.
  f_equal. unfold Rgeb. destruct (Rge_dec 0 threshold); [lra|done].
Qed.

Lemma same_frame_is_not_significant_witness :
  histogram_rms Example.white_2x2 Example.white_2x2 = inr 0%R ∧
  (has_significant_change 0 (Some 0%nat) 8
     (Example.world_with Example.white_2x2)).1 = inr false.
Proof.
  apply (same_frame_is_not_significant
           (Example.world_with Example.white_2x2) 0 Example.white_2x2 8).
  - reflexivity.
  - simpl. lia.
  - lra.
Defined.

(** C6, as stated, fails: for the bitmap without pixels the number of
    samples is zero, and the comparison of the bitmap with itself raises
    the division by zero instead of answering false. *)
Lemma empty_frame_raises :
  (0 < 8)%R ∧
  (has_significant_change 0 (Some 0%nat) 8
     (Example.world_with Example.empty_image)).1 = inl ZeroDivisionError.
Proof. split; [lra|]. vm_compute. reflexivity. Qed.

Lemma histogram_rms_is_direct_rms_witness :
  histogram_rms Example.white_2x2 (mkImage 2 2 [[black; black]; [black; Example.white]])
  = direct_rms Example.white_2x2 (mkImage 2 2 [[black; black]; [black; Example.white]]) ∧
  ∀ (w : World) (current previous : nat) (threshold : R),
    heap w !! current = Some Example.white_2x2 →
    heap w !! previous = Some (mkImage 2 2 [[black; black]; [black; Example.white]]) →
    (has_significant_change current (Some previous) threshold w).1
    = match direct_rms Example.white_2x2
              (mkImage 2 2 [[black; black]; [black; Example.white]]) with
      | inl e => inl e
      | inr rms => inr (Rgeb rms threshold)
      end.
Proof.
  apply (histogram_rms_is_direct_rms Example.white_2x2
           (mkImage 2 2 [[black; black]; [black; Example.white]])).
  - split; [reflexivity|]. repeat constructor.
  - split; [reflexivity|]. repeat constructor.
  - reflexivity.
Defined.

(** ** Computations that make no call and keep the existing objects *)

Lemma quiet_ret {A} (a : A) : quiet (ret a).
Proof. by intros w. Qed.

Lemma quiet_raise {A} (e : exn) : quiet (@raise A e).
Proof. by intros w. Qed.

Lemma quiet_load l : quiet (load l).
Proof. intros w. unfold load. by destruct (heap w !! l). Qed.

Lemma quiet_alloc im : quiet (alloc im).
Proof.
  intros w. split; [done|]. intros l v Hl. simpl.
  rewrite lookup_insert_ne; [done|].
  pose proof (fresh_is_new (heap w)). congruence.
Qed.

Lemma quiet_bind {A B} (m : M A) (k : A → M B) :
  quiet m → (∀ a, quiet (k a)) → quiet (bind m k).
Proof.
  intros Hm Hk w. unfold bind. destruct (Hm w) as [Ht Hh].
  destruct (m w) as [[e|a] w1]; simpl in *; [done|].
  destruct (Hk a w1) as [Ht' Hh']. split; [congruence|auto].
Qed.

Ltac quiet_step :=
  first
    [ apply quiet_ret | apply quiet_raise | apply quiet_load | apply quiet_alloc
    | apply quiet_bind; [| intros ?]
    | assumption
    | match goal with
      | |- quiet (match ?x with _ => _ end) => destruct x
      | |- quiet (let '(_, _) := ?x in _) => destruct x
      end ].

Ltac quiet_tac := autounfold with py_unfold; repeat quiet_step.

Lemma quiet_has_significant_change current previous threshold :
  quiet (has_significant_change current previous threshold).
Proof. quiet_tac. Qed.

Lemma redact_loop_quiet {PIL : Pillow} processed regions blur_radius fill_color :
  ∀ w acc, heap w !! processed = Some acc →
    trace (redact_loop processed regions blur_radius fill_color w).2 = trace w ∧
    is_Some (heap (redact_loop processed regions blur_radius fill_color w).2 !! processed).
Proof.
  induction regions as [|region rest IH]; intros w acc Hacc; [by eauto|].
  destruct (decide (left region ≤ right region ∧ top region ≤ bottom region))
    as [[Hlr Htb]|Hbad].
  - destruct (Z.le_gt_cases (crop_pixels (region_box region)) (2 * MAX_IMAGE_PIXELS))
      as [Hsmall|Hlarge].
    + destruct (redact_loop_cons processed region rest blur_radius fill_color w acc
                  Hacc Hlr Htb Hsmall) as (w1 & acc1 & -> & _ & Hacc1 & _ & Htrace).
      destruct (IH w1 acc1 Hacc1) as [Htrace' Hsome]. split; [congruence|done].
    + rewrite redact_loop_unfold.
      rewrite (bind_raises _ _ _ _ _
                 (Image_crop_refuses processed (region_box region) w acc
                    Hacc Hlr Htb Hlarge)).
      by eauto.
  - rewrite redact_loop_unfold. unfold Image_crop, region_box.
    destruct (Z.ltb_spec (right region) (left region)); [by eauto|].
    destruct (Z.ltb_spec (bottom region) (top region)); [by eauto|]. lia.
Qed.

(** Whatever its outcome, a redaction makes no call and keeps every
    existing object; the bitmap it returns is a new object. *)
Lemma redact_regions_quiet {PIL : Pillow} image regions blur_radius fill_color w im :
  heap w !! image = Some im →
  trace (redact_regions image regions blur_radius fill_color w).2 = trace w ∧
  (∀ l v, heap w !! l = Some v →
     heap (redact_regions image regions blur_radius fill_color w).2 !! l = Some v) ∧
  (∀ out, (redact_regions image regions blur_radius fill_color w).1 = inr out →
     heap w !! out = None ∧
     is_Some (heap (redact_regions image regions blur_radius fill_color w).2 !! out)).
Proof.
  intros Him.
  set (processed := fresh (dom (heap w))).
  set (w0 := mkWorld (<[processed := im]> (heap w)) (trace w)).
  assert (Hnew : heap w !! processed = None) by apply fresh_is_new.
  assert (Hacc : heap w0 !! processed = Some im) by apply lookup_insert_eq.
  assert (Hrun : redact_regions image regions blur_radius fill_color w
                 = (redact_loop processed regions blur_radius fill_color ;;;
                    ret processed) w0).
  { unfold redact_regions.
    by rewrite (bind_returns _ _ _ _ _ (Image_copy_returns image w im Him)). }
  destruct (redact_loop_quiet processed regions blur_radius fill_color w0 im Hacc)
    as [Htrace Hsome].
  pose proof (redact_loop_frame processed regions blur_radius fill_color w0 im Hacc)
    as Hframe.
  rewrite Hrun. unfold bind.
  destruct (redact_loop processed regions blur_radius fill_color w0) as [[e|[]] w1];
    simpl in *.
  - split; [done|]. split; [|done]. intros l v Hl. apply Hframe; [congruence|].
    rewrite lookup_insert_ne; [done|congruence].
  - split; [done|]. split.
    + intros l v Hl. apply Hframe; [congruence|].
      rewrite lookup_insert_ne; [done|congruence].
    + by intros out [= <-].
Qed.

(** ** Encoding *)

Section encoding.
Context {PIL : Pillow}.

Lemma encodable_within (fmt : string) (im : Image) :
  0 < width im ≤ 16383 → 0 < height im ≤ 16383 → encodable fmt im = true.
Proof.
  intros Hw Hh. unfold encodable, encoder_limit.
  destruct (bool_decide (fmt = "WEBP"%string));
    repeat (apply andb_true_intro; split); lia.
Qed.

Lemma compress_image_webp image im quality optimize w :
  heap w !! image = Some im →
  compress_image image "WEBP" quality optimize w
  = (if encodable "WEBP" im
     then inr (save_handler "WEBP" im quality optimize (Some 6), "image/webp"%string)
     else inl (save_refusal "WEBP" im),
     w).
Proof.
  intros Him. unfold compress_image, Image_save, bind, load, ret, raise.
  rewrite Him. change (PyStr.upper (if bool_decide (PyStr.upper "WEBP" ∈
    ["JPEG"; "JPG"; "WEBP"]%string) then PyStr.upper "WEBP" else "JPEG"%string))
    with "WEBP"%string.
  by destruct (encodable "WEBP" im).
Qed.

Lemma compress_image_jpeg image im quality optimize w :
  heap w !! image = Some im →
  compress_image image "JPEG" quality optimize w
  = (if encodable "JPEG" im
     then inr (save_handler "JPEG" im quality optimize None, "image/jpeg"%string)
     else inl (save_refusal "JPEG" im),
     w).
Proof.
  intros Him. unfold compress_image, Image_save, bind, load, ret, raise.
  rewrite Him. change (PyStr.upper (if bool_decide (PyStr.upper "JPEG" ∈
    ["JPEG"; "JPG"; "WEBP"]%string) then PyStr.upper "JPEG" else "JPEG"%string))
    with "JPEG"%string.
  by destruct (encodable "JPEG" im).
Qed.

Lemma encode_result_returns (im : Image) (prefer_webp : bool) :
  0 < width im → 0 < height im →
  encode_result im prefer_webp = inr (encoding im prefer_webp).
Proof.
  intros Hw Hh. unfold encode_result.
  destruct (thumbnail_within im (1280, 720) Hw Hh eq_refl eq_refl) as [Hx Hy].
  simpl in Hx, Hy. rewrite encodable_within; [done|lia..].
Qed.

Lemma encode_result_inv (im : Image) (prefer_webp : bool) encoded :
  encode_result im prefer_webp = inr encoded → encoded = encoding im prefer_webp.
Proof. unfold encode_result. destruct (encodable _ _); [|done]. by intros [= <-]. Qed.

Lemma encode_frame_runs image im prefer_webp w :
  heap w !! image = Some im →
  ∃ w', encode_frame image prefer_webp w = (encode_result im prefer_webp, w') ∧
        trace w' = trace w ∧
        ∀ l v, heap w !! l = Some v → heap w' !! l = Some v.
Proof.
  intros Him.
  set (copy := fresh (dom (heap w))).
  set (w' := mkWorld (<[copy := thumbnail_data im (1280, 720)]>
                        (<[copy := im]> (heap w))) (trace w)).
  assert (Hresize : resize_image image (1280, 720) w = (inr copy, w')).
  { unfold resize_image.
    rewrite (bind_returns _ _ _ _ _ (Image_copy_returns image w im Him)).
    unfold Image_thumbnail, bind, load, store, ret. cbn [heap trace].
    by rewrite lookup_insert_eq. }
  exists w'. split; [|split; [done|]].
  - unfold encode_frame. rewrite (bind_returns _ _ _ _ _ Hresize).
    assert (Hcopy : heap w' !! copy = Some (thumbnail_data im (1280, 720)))
      by apply lookup_insert_eq.
    unfold encode_result, encoding. destruct prefer_webp.
    + rewrite (compress_image_webp copy _ 80 true w' Hcopy).
      by destruct (encodable _ _).
    + rewrite (compress_image_jpeg copy _ 80 true w' Hcopy).
      by destruct (encodable _ _).
  - intros l v Hl. simpl.
    assert (copy ≠ l).
    { intros <-. pose proof (fresh_is_new (heap w)) as Hnew. fold copy in Hnew.
      congruence. }
    by rewrite !lookup_insert_ne.
Qed.

(** C7 (the code at the failing input). For the format value "jpg" the
    compression keeps the spelling JPG, for which Pillow has no save
    handler, and raises instead of returning bytes. *)
Theorem jpg_spelling_is_not_encoded (quality : Z) (optimize : bool) :
  (compress_image 0 "jpg" quality optimize (Example.world_with Example.white_2x2)).1
  = inl (KeyError "JPG").
Proof. reflexivity. Qed.


End encoding.

(** ** The course of one tick *)

Section course.
Context {PIL : Pillow} {hash : Hashlib}.

Lemma process_frame_course args regions tick st w :
  ∃ r w' evs,
    process_frame args regions tick st w = (r, w') ∧
    trace w' = trace w ++ evs ∧
    (Forall (fun ev => ¬ is_analysis ev) evs ∨
     ∃ before after screenshot im,
       evs = before
             ++ Analyzed (prompt args) (encoding im (negb (no_webp args))).1
                  (encoding im (negb (no_webp args))).2
                  (respond tick (prompt args)
                     (encoding im (negb (no_webp args))).1
                     (encoding im (negb (no_webp args))).2)
             :: after ∧
       Forall (fun ev => ¬ is_analysis ev) before ∧
       Forall (fun ev => ¬ is_analysis ev) after ∧
       heap w !! screenshot = None ∧
       heap w' !! screenshot = Some im ∧
       (regions = [] → grab tick = inr im) ∧
       (∀ l v, heap w !! l = Some v → heap w' !! l = Some v) ∧
       r = inr (after_analysis st screenshot
                  (encoding im (negb (no_webp args))).1
                  (respond tick (prompt args)
                     (encoding im (negb (no_webp args))).1
                     (encoding im (negb (no_webp args))).2))).
Proof.
  unfold process_frame.
  destruct (should_skip_window_events tick (window_keywords args) w)
    as (skip & e1 & Hskip & He1).
  rewrite (bind_returns _ _ _ _ _ Hskip).
  destruct skip.
  { eexists _, _, (e1 ++ [_]). split; [reflexivity|]. split.
    - simpl. by rewrite app_assoc.
    - left. apply Forall_app. split; [done|]. repeat constructor. by intros []. }
  set (w1 := mkWorld (heap w) (trace w ++ e1)).
  destruct (grab tick) as [exc|im0] eqn:Hgrab.
  { assert (Hcap : try_except (capture_frame tick) w1
                   = (inr (inl exc),
                      mkWorld (heap w) (trace w ++ e1 ++ [Captured (inl exc)]))).
    { unfold try_except, capture_frame, bind, emit, raise. simpl.
      rewrite Hgrab. simpl. by rewrite <- app_assoc. }
    rewrite (bind_returns _ _ _ _ _ Hcap).
    unfold bind, update_text, emit, ret. simpl.
    eexists _, _, (e1 ++ [_; _]). split; [reflexivity|]. split.
    - simpl. by rewrite <- !app_assoc.
    - left. apply Forall_app. split; [done|]. repeat constructor; by intros []. }
  set (l0 := fresh (dom (heap w))).
  assert (Hl0 : heap w !! l0 = None) by apply fresh_is_new.
  set (w2 := mkWorld (<[l0 := im0]> (heap w)) (trace w ++ e1 ++ [Captured (inr im0)])).
  assert (Hcap : try_except (capture_frame tick) w1 = (inr (inr l0), w2)).
  { unfold try_except, capture_frame, bind, emit, alloc. simpl.
    rewrite Hgrab. simpl. by rewrite <- app_assoc. }
  rewrite (bind_returns _ _ _ _ _ Hcap). cbv beta iota.
  assert (Hw2 : ∀ l v, heap w !! l = Some v → heap w2 !! l = Some v).
  { intros l v Hl. simpl. rewrite lookup_insert_ne; [done|congruence]. }
  assert (Hbefore : Forall (fun ev => ¬ is_analysis ev) (e1 ++ [Captured (inr im0)])).
  { apply Forall_app. split; [done|]. repeat constructor. by intros []. }
  set (redact := match regions with [] => ret l0 | _ :: _ => _ end).
  assert (Hredact :
    trace (redact w2).2 = trace w2 ∧
    (∀ l v, heap w2 !! l = Some v → heap (redact w2).2 !! l = Some v) ∧
    ∀ out, (redact w2).1 = inr out →
      heap w !! out = None ∧
      ∃ im, heap (redact w2).2 !! out = Some im ∧ (regions = [] → im0 = im)).
  { unfold redact. destruct regions as [|region rest].
    - split; [done|]. split; [done|]. intros out [= <-]. split; [done|].
      exists im0. split; [apply lookup_insert_eq|done].
    - destruct (redact_regions_quiet l0 (region :: rest) 25 (Some (0, 0, 0)) w2 im0
                  (lookup_insert_eq _ _ _)) as (Ht & Hh & Hout).
      split; [done|]. split; [done|]. intros out Hr.
      destruct (Hout out Hr) as [Hnone [im Him]]. split.
      + destruct (heap w !! out) as [v|] eqn:Hv; [|done].
        apply Hw2 in Hv. congruence.
      + by exists im. }
  destruct Hredact as (Ht3 & Hh3 & Hout3).
  destruct (redact w2) as [[e|shot] w3] eqn:Hmr; simpl in Ht3, Hh3, Hout3.
  { rewrite (bind_raises _ _ _ _ _ Hmr).
    eexists _, _, _. split; [reflexivity|]. split; [by rewrite Ht3|]. by left. }
  rewrite (bind_returns _ _ _ _ _ Hmr).
  destruct (Hout3 shot eq_refl) as (Hnew & im & Hshot & Hplain). clear Hout3.
  destruct (quiet_has_significant_change shot (last_image st) 8 w3) as [Ht4 Hh4].
  destruct (has_significant_change shot (last_image st) 8 w3)
    as [[e|changed] w4] eqn:Hsig; simpl in Ht4, Hh4.
  { rewrite (bind_raises _ _ _ _ _ Hsig).
    eexists _, _, _. split; [reflexivity|]. split; [by rewrite Ht4, Ht3|]. by left. }
  rewrite (bind_returns _ _ _ _ _ Hsig).
  destruct changed; cbn [negb].
  2:{ eexists _, _, _. split; [reflexivity|]. split; [simpl; by rewrite Ht4, Ht3|].
      by left. }
  destruct (encode_frame_runs shot im (negb (no_webp args)) w4 (Hh4 _ _ Hshot))
    as (w5 & Henc & Ht5 & Hh5).
  destruct (encode_result im (negb (no_webp args))) as [e|encoded] eqn:Hresult.
  { rewrite (bind_raises _ _ _ _ _ Henc).
    eexists _, _, _. split; [reflexivity|].
    split; [by rewrite Ht5, Ht4, Ht3|]. by left. }
  apply encode_result_inv in Hresult as ->.
  rewrite (bind_returns _ _ _ _ _ Henc).
  destruct (encoding im (negb (no_webp args))) as [payload mime] eqn:Hencoding.
  cbv beta iota zeta. cbn [fst snd].
  assert (Hh : ∀ l v, heap w !! l = Some v → heap w5 !! l = Some v) by auto.
  assert (Hshot5 : heap w5 !! shot = Some im) by auto.
  assert (Ht : trace w5 = trace w ++ e1 ++ [Captured (inr im0)]) by congruence.
  assert (Hplain' : regions = [] → inr im0 = inr im :> exn + Image)
    by (intros ?; f_equal; auto).
  clear Ht3 Hh3 Ht4 Hh4 Ht5 Hh5 Hmr Hsig Henc Hcap Hw2 Hshot Hplain.
  destruct (bool_decide (last_payload_digest st = Some (compute_digest payload))).
  { eexists _, _, _. split; [reflexivity|]. split; [simpl; by rewrite Ht|]. by left. }
  unfold try_except, analyze_frame, update_text, bind, emit, ret, raise.
  cbn [heap trace].
  destruct (respond tick (prompt args) payload mime) as [exc|message] eqn:Hrespond.
  { eexists _, _, ((e1 ++ [Captured (inr im0)]) ++ _ :: [_]).
    split; [reflexivity|]. split; [simpl; by rewrite Ht, <- !app_assoc|].
    right. eexists (e1 ++ [Captured (inr im0)]), [_], shot, im.
    rewrite !Hencoding. cbn [fst snd heap trace]. rewrite !Hrespond.
    split; [done|]. split; [done|].
    split; [repeat constructor; by intros []|]. done. }
  destruct (PyStr.truthy message) eqn:Hmessage; cbn [negb].
  2:{ eexists _, _, ((e1 ++ [Captured (inr im0)]) ++ [_]).
      split; [reflexivity|]. split; [simpl; by rewrite Ht, <- !app_assoc|].
      right. eexists (e1 ++ [Captured (inr im0)]), [], shot, im.
      rewrite !Hencoding. cbn [fst snd heap trace]. rewrite !Hrespond.
      split; [done|]. split; [done|]. split; [done|].
      simpl. by rewrite Hmessage. }
  destruct (bool_decide (message ≠ last_message st)) eqn:Hdiffers; cbn [heap trace].
  - eexists _, _, ((e1 ++ [Captured (inr im0)]) ++ _ :: [_]).
    split; [reflexivity|]. split; [simpl; by rewrite Ht, <- !app_assoc|].
    right. eexists (e1 ++ [Captured (inr im0)]), [_], shot, im.
    rewrite !Hencoding. cbn [fst snd heap trace]. rewrite !Hrespond.
    split; [done|]. split; [done|].
    split; [repeat constructor; by intros []|].
    simpl. by rewrite Hmessage.
  - apply bool_decide_eq_false in Hdiffers.
    assert (message = last_message st) as <-
      by by destruct (decide (message = last_message st)).
    eexists _, _, ((e1 ++ [Captured (inr im0)]) ++ [_]).
    split; [reflexivity|]. split; [simpl; by rewrite Ht, <- !app_assoc|].
    right. eexists (e1 ++ [Captured (inr im0)]), [], shot, im.
    rewrite !Hencoding. cbn [fst snd heap trace]. rewrite !Hrespond.
    split; [done|]. split; [done|]. split; [done|].
    simpl. by rewrite Hmessage.
Qed.

End course.

Section storing.
Context {PIL : Pillow} {hash : Hashlib}.

(** C1 (amended). For every tick on which the analysis call succeeds
    with a message that is not empty, [process_frame] stores the frame
    of the tick (a new image object, the one whose encoding was sent)
    and the digest of its payload, together with the message, whether
    or not the message equals the one stored before; when the message
    is empty the tick returns with the pipeline state as it was. *)
Theorem analysis_answer_is_stored (args : Args) (regions : list Region)
    (tick : Tick) (st : PipelineState) (w : World) (sent_prompt : string)
    (payload : list Byte.byte) (mime message : string) (evs : list event) :
  trace (process_frame args regions tick st w).2 = trace w ++ evs →
  Analyzed sent_prompt payload mime (inr message) ∈ evs →
  (message ≠ ""%string →
   ∃ screenshot im,
     (process_frame args regions tick st w).1
     = inr (mkState (Some (compute_digest payload)) (Some screenshot) message) ∧
     heap w !! screenshot = None ∧
     heap (process_frame args regions tick st w).2 !! screenshot = Some im ∧
     encoding im (negb (no_webp args)) = (payload, mime) ∧
     (regions = [] → grab tick = inr im)) ∧
  (message = ""%string → (process_frame args regions tick st w).1 = inr st).
Proof.
  destruct (process_frame_course args regions tick st w)
    as (r & w' & evs' & -> & Htrace & Hcases).
  cbn [fst snd]. intros Hevs Hanalyzed.
  rewrite Htrace in Hevs. apply app_inv_head in Hevs as ->.
  destruct Hcases as [Hnone|Hsome].
  { rewrite Forall_forall in Hnone. by destruct (Hnone _ Hanalyzed). }
  destruct Hsome as (before & after & screenshot & im & -> & Hbefore & Hafter
                     & Hnew & Hshot & Hplain & _ & ->).
  rewrite Forall_forall in Hbefore, Hafter.
  apply elem_of_app in Hanalyzed as [Hin|Hin]; [by destruct (Hbefore _ Hin)|].
  apply elem_of_cons in Hin as [Heq|Hin]; [|by destruct (Hafter _ Hin)].
  injection Heq as _ Hpayload Hmime Hrespond.
  rewrite <- Hrespond, <- Hpayload. unfold after_analysis. split.
  - intros Hmessage. exists screenshot, im.
    destruct message; [done|]. simpl.
    repeat split; try done.
    rewrite Hpayload, Hmime. by destruct (encoding im _).
  - by intros ->.
Qed.

End storing.

Lemma analysis_answer_is_stored_witness :
  ("Close the dialog"%string ≠ ""%string →
   ∃ screenshot im,
     (process_frame (PIL := Example.pillow) (hash := Example.hashlib)
        ExampleTick.args [] (ExampleTick.tick "Close the dialog")
        (mkState None None "Close the dialog") ExampleTick.start).1
     = inr (mkState (Some (compute_digest (hash := Example.hashlib) ExampleTick.payload))
              (Some screenshot) "Close the dialog") ∧
     heap ExampleTick.start !! screenshot = None ∧
     heap (process_frame (PIL := Example.pillow) (hash := Example.hashlib)
             ExampleTick.args [] (ExampleTick.tick "Close the dialog")
             (mkState None None "Close the dialog") ExampleTick.start).2 !! screenshot
     = Some im ∧
     encoding (PIL := Example.pillow) im (negb (no_webp ExampleTick.args))
     = (ExampleTick.payload, "image/webp"%string) ∧
     (@nil Region = [] → grab (ExampleTick.tick "Close the dialog") = inr im)) ∧
  ("Close the dialog"%string = ""%string →
   (process_frame (PIL := Example.pillow) (hash := Example.hashlib)
      ExampleTick.args [] (ExampleTick.tick "Close the dialog")
      (mkState None None "Close the dialog") ExampleTick.start).1
   = inr (mkState None None "Close the dialog")).
Proof.
  apply (analysis_answer_is_stored (PIL := Example.pillow) (hash := Example.hashlib)
           ExampleTick.args [] (ExampleTick.tick "Close the dialog")
           (mkState None None "Close the dialog") ExampleTick.start
           "Describe the screen" ExampleTick.payload "image/webp" "Close the dialog"
           [Captured (inr Example.white_2x2);
            Analyzed "Describe the screen" ExampleTick.payload "image/webp"
              (inr "Close the dialog"%string)]).
  - vm_compute. reflexivity.
  - apply list_elem_of_further, list_elem_of_here.
Defined.

(** C1, as stated, fails: on a first tick whose analysis call succeeds
    with the empty message, the tick returns with no frame and no digest
    stored. *)
Lemma empty_answer_stores_nothing :
  trace (process_frame (PIL := Example.pillow) (hash := Example.hashlib)
           ExampleTick.args [] (ExampleTick.tick "") initial_state ExampleTick.start).2
  = [Captured (inr Example.white_2x2);
     Analyzed "Describe the screen" ExampleTick.payload "image/webp" (inr ""%string)] ∧
  (process_frame (PIL := Example.pillow) (hash := Example.hashlib)
     ExampleTick.args [] (ExampleTick.tick "") initial_state ExampleTick.start).1
  = inr (mkState None None "").
Proof. split; vm_compute; reflexivity. Qed.

(** ** Concrete cases of the properties above *)


Lemma untitled_window_is_not_skipped_witness :
  (should_skip_window (ExampleTick.tick "Save your work")
     (window_keywords (mkArgs ["editor"%string] "Describe the screen" false))
     ExampleTick.start).1 = inr false ∧
  ∃ evs,
    trace (process_frame (PIL := Example.pillow) (hash := Example.hashlib)
             (mkArgs ["editor"%string] "Describe the screen" false) []
             (ExampleTick.tick "Save your work") initial_state ExampleTick.start).2
    = trace ExampleTick.start
      ++ WindowTitleRead None :: Captured (grab (ExampleTick.tick "Save your work")) :: evs.
Proof.
  apply (untitled_window_is_not_skipped (PIL := Example.pillow) (hash := Example.hashlib)
           (mkArgs ["editor"%string] "Describe the screen" false) []
           (ExampleTick.tick "Save your work") initial_state ExampleTick.start).
  - simpl. discriminate.
  - reflexivity.
Defined.



(** * Further properties of the code *)

(** ** Strings *)

Lemma lower_upper_char (c : ascii) :
  PyStr.lower_char (PyStr.upper_char c) = PyStr.lower_char c.
Proof. by destruct c as [[] [] [] [] [] [] [] []]. Qed.

Lemma lower_upper (s : string) : PyStr.lower (PyStr.upper s) = PyStr.lower s.
Proof.
  unfold PyStr.lower, PyStr.upper.
  induction s as [|c s IH]; simpl; [done|]. by rewrite lower_upper_char, IH.
Qed.

Lemma rstrip_with_idemp sp s :
  PyStr.rstrip_with sp (PyStr.rstrip_with sp s) = PyStr.rstrip_with sp s.
Proof.
  induction s as [|c s IH]; simpl; [done|].
  destruct (PyStr.rstrip_with sp s) as [|k ks] eqn:Hs.
  - destruct (sp c) eqn:Hc; simpl; [done|]. by rewrite Hc.
  - simpl in *. by rewrite IH.
Qed.

Lemma lstrip_with_no_leading sp s : no_leading sp (PyStr.lstrip_with sp s).
Proof.
  induction s as [|c s IH]; simpl; [done|]. by destruct (sp c) eqn:Hc.
Qed.

Lemma lstrip_with_fixed sp s : no_leading sp s → PyStr.lstrip_with sp s = s.
Proof. destruct s as [|c s]; simpl; [done|]. by intros ->. Qed.

Lemma rstrip_with_no_leading sp s :
  no_leading sp s → no_leading sp (PyStr.rstrip_with sp s).
Proof.
  destruct s as [|c s]; simpl; [done|]. intros Hc.
  destruct (PyStr.rstrip_with sp s); by rewrite ?Hc.
Qed.

Lemma strip_idemp s : PyStr.strip (PyStr.strip s) = PyStr.strip s.
Proof.
  unfold PyStr.strip.
  rewrite (lstrip_with_fixed _ (PyStr.rstrip_with _ _)).
  - apply rstrip_with_idemp.
  - apply rstrip_with_no_leading, lstrip_with_no_leading.
Qed.

Lemma lstrip_with_chars sp s c :
  c ∈ list_ascii_of_string (PyStr.lstrip_with sp s) → c ∈ list_ascii_of_string s.
Proof.
  induction s as [|d s IH]; simpl; [done|].
  destruct (sp d); [|done]. intros Hc. right. by apply IH.
Qed.

Lemma rstrip_with_chars sp s c :
  c ∈ list_ascii_of_string (PyStr.rstrip_with sp s) → c ∈ list_ascii_of_string s.
Proof.
  revert c. induction s as [|d s IH]; intros c; simpl; [done|].
  destruct (PyStr.rstrip_with sp s) as [|k ks] eqn:Hs.
  - destruct (sp d); simpl; [by intros ?%elem_of_nil|].
    intros [->|?%elem_of_nil]%elem_of_cons; [left|done].
  - simpl. intros [->|Hc]%elem_of_cons; [left|right]. by apply IH.
Qed.

Lemma strip_chars s c :
  c ∈ list_ascii_of_string (PyStr.strip s) → c ∈ list_ascii_of_string s.
Proof.
  unfold PyStr.strip. intros Hc.
  by apply rstrip_with_chars, lstrip_with_chars in Hc.
Qed.

Lemma lstrip_with_blank sp s :
  Forall (fun c => sp c = true) (list_ascii_of_string s) →
  PyStr.lstrip_with sp s = EmptyString.
Proof.
  induction s as [|d s IH]; simpl; [done|].
  intros [-> Hs]%Forall_cons. by apply IH.
Qed.

Lemma strip_blank s :
  Forall (fun c => PyStr.is_unicode_space c = true) (list_ascii_of_string s) →
  PyStr.strip s = EmptyString.
Proof. intros Hs. unfold PyStr.strip. by rewrite lstrip_with_blank. Qed.

(** The pieces of a split are made of the characters of the string, the
    separator excepted. *)
Lemma split_chars sep s :
  Forall (fun piece => ∀ c, c ∈ list_ascii_of_string piece →
                            c ∈ list_ascii_of_string s ∧ c ≠ sep)
    (PyStr.split sep s).
Proof.
  induction s as [|d s IH]; simpl.
  - constructor; [|constructor]. by intros c ?%elem_of_nil.
  - destruct (Ascii.eqb_spec d sep) as [->|Hd].
    + constructor; [by intros c ?%elem_of_nil|].
      eapply Forall_impl; [exact IH|]. simpl. intros piece Hpiece c Hc.
      destruct (Hpiece c Hc). split; [by right|done].
    + destruct (PyStr.split sep s) as [|piece pieces].
      * constructor; [|constructor]. simpl.
        intros c [->|?%elem_of_nil]%elem_of_cons; [|done]. split; [left|done].
      * apply Forall_cons in IH as [Hpiece Hpieces]. constructor.
        -- simpl. intros c [->|Hc]%elem_of_cons; [split; [left|done]|].
           destruct (Hpiece c Hc). split; [by right|done].
        -- eapply Forall_impl; [exact Hpieces|]. simpl. intros p Hp c Hc.
           destruct (Hp c Hc). split; [by right|done].
Qed.

(** ** Redaction as a function of the bitmap *)

Section redaction_data.
Context {PIL : Pillow}.

Lemma redact_loop_computes processed regions blur_radius fill_color :
  ∀ w acc, heap w !! processed = Some acc →
    match redact_data acc regions blur_radius fill_color with
    | inl e => (redact_loop processed regions blur_radius fill_color w).1 = inl e
    | inr acc' =>
        (redact_loop processed regions blur_radius fill_color w).1 = inr tt ∧
        heap (redact_loop processed regions blur_radius fill_color w).2 !! processed
        = Some acc'
    end.
Proof.
  induction regions as [|region rest IH]; intros w acc Hacc; [done|].
  cbn [redact_data].
  destruct (decide (left region ≤ right region ∧ top region ≤ bottom region))
    as [[Hlr Htb]|Hbad].
  - replace (right region <? left region) with false by lia.
    replace (bottom region <? top region) with false by lia.
    destruct (Z.le_gt_cases (crop_pixels (region_box region)) (2 * MAX_IMAGE_PIXELS))
      as [Hsmall|Hlarge].
    + destruct (redact_loop_cons processed region rest blur_radius fill_color w acc
                  Hacc Hlr Htb Hsmall) as (w1 & acc1 & -> & -> & Hacc1 & _ & _).
      rewrite (decompression_bomb_check_passes _ Hsmall). by apply IH.
    + rewrite (decompression_bomb_check_refuses _ Hlarge), redact_loop_unfold.
      by rewrite (bind_raises _ _ _ _ _
                    (Image_crop_refuses processed (region_box region) w acc
                       Hacc Hlr Htb Hlarge)).
  - rewrite redact_loop_unfold. unfold Image_crop, region_box.
    destruct (Z.ltb_spec (right region) (left region)); [done|].
    destruct (Z.ltb_spec (bottom region) (top region)); [done|]. lia.
Qed.

Lemma redact_regions_computes image regions blur_radius fill_color w im :
  heap w !! image = Some im →
  match redact_data im regions blur_radius fill_color with
  | inl e => (redact_regions image regions blur_radius fill_color w).1 = inl e
  | inr im' =>
      (redact_regions image regions blur_radius fill_color w).1
      = inr (fresh (dom (heap w))) ∧
      heap (redact_regions image regions blur_radius fill_color w).2
        !! fresh (dom (heap w)) = Some im'
  end.
Proof.
  intros Him.
  set (processed := fresh (dom (heap w))).
  set (w0 := mkWorld (<[processed := im]> (heap w)) (trace w)).
  assert (Hrun : redact_regions image regions blur_radius fill_color w
                 = (redact_loop processed regions blur_radius fill_color ;;;
                    ret processed) w0).
  { unfold redact_regions.
    by rewrite (bind_returns _ _ _ _ _ (Image_copy_returns image w im Him)). }
  pose proof (redact_loop_computes processed regions blur_radius fill_color w0 im
                (lookup_insert_eq _ _ _)) as Hloop.
  rewrite Hrun. unfold bind.
  destruct (redact_data im regions blur_radius fill_color) as [e|im'];
    destruct (redact_loop processed regions blur_radius fill_color w0)
      as [[e'|[]] w1]; simpl in *; try done; try by destruct Hloop.
  by injection Hloop as ->.
Qed.





End redaction_data.

(** ** Bitmaps that agree pixel by pixel *)






Section redaction_more.
Context {PIL : Pillow}.

(** X1. The bitmap that [redact_regions] returns, or the exception it
    raises, depends on the content of the input bitmap and on the
    regions alone, not on the heap or on the location of the input. *)
Theorem redaction_depends_on_content (w1 w2 : World) (image1 image2 : nat)
    (im : Image) (regions : list Region) (blur_radius : Z)
    (fill_color : option (Z * Z * Z)) :
  heap w1 !! image1 = Some im →
  heap w2 !! image2 = Some im →
  match (redact_regions image1 regions blur_radius fill_color w1).1,
        (redact_regions image2 regions blur_radius fill_color w2).1 with
  | inr out1, inr out2 =>
      ∃ im',
        heap (redact_regions image1 regions blur_radius fill_color w1).2 !! out1
        = Some im' ∧
        heap (redact_regions image2 regions blur_radius fill_color w2).2 !! out2
        = Some im'
  | inl e1, inl e2 => e1 = e2
  | _, _ => False
  end.
Proof.
  intros H1 H2.
  pose proof (redact_regions_computes image1 regions blur_radius fill_color w1 im H1) as R1.
  pose proof (redact_regions_computes image2 regions blur_radius fill_color w2 im H2) as R2.
  destruct (redact_data im regions blur_radius fill_color) as [e|im'].
  - by rewrite R1, R2.
  - destruct R1 as [-> R1], R2 as [-> R2]. by exists im'.
Qed.



End redaction_more.

(** ** More on the region configuration *)

Lemma from_tuple_valid coords region :
  from_tuple coords = inr region → Region_valid region.
Proof.
  destruct coords as [|l [|t [|r [|b [|]]]]]; try done. simpl.
  destruct (Z.leb_spec r l), (Z.leb_spec b t); try done.
  intros [= <-]. by split.
Qed.

Lemma parse_chunks_valid chunks : ∀ regions found,
  Forall Region_valid regions →
  parse_chunks chunks regions = inr found → Forall Region_valid found.
Proof.
  induction chunks as [|chunk rest IH]; intros regions found Hregions; simpl.
  - by intros [= <-].
  - destruct (negb _); [by apply IH|].
    destruct (int_each _) as [e|coords]; [done|].
    destruct (from_tuple coords) as [e|region] eqn:Hregion; [done|].
    apply IH. apply Forall_app. split; [done|].
    repeat constructor; by eapply from_tuple_valid.
Qed.

Lemma parse_chunks_raises_ValueError chunks : ∀ regions e,
  parse_chunks chunks regions = inl e → is_ValueError e = true.
Proof.
  induction chunks as [|chunk rest IH]; intros regions e; simpl; [done|].
  destruct (negb _); [by apply IH|].
  destruct (int_each _) as [e'|coords] eqn:Hints.
  - intros [= <-]. by apply int_each_raises in Hints as (? & ? & ? & _ & _ & _ & ->).
  - destruct (from_tuple coords) as [e'|region] eqn:Hregion; [|by apply IH].
    intros [= <-].
    destruct coords as [|l [|t [|r [|b [|]]]]]; simpl in Hregion;
      try by injection Hregion as <-.
    destruct ((r <=? l) || (b <=? t)); [by injection Hregion as <-|done].
Qed.

(** X4. Every region that [parse_region_config] returns satisfies the
    invariant of [Region]: its right edge lies beyond its left edge and
    its bottom edge below its top edge. *)
Theorem parsed_regions_are_valid (config : option string) (regions : list Region) :
  parse_region_config config = inr regions → Forall Region_valid regions.
Proof.
  unfold parse_region_config. destruct config as [config|]; [|by intros [= <-]].
  destruct (negb _); [by intros [= <-]|].
  by apply parse_chunks_valid.
Qed.

Lemma parsed_regions_are_valid_witness :
  Forall Region_valid [mkRegion 0 0 10 10; mkRegion 5 5 20 20].
Proof.
  apply (parsed_regions_are_valid (Some "0,0,10,10;5,5,20,20"%string)).
  reflexivity.
Defined.

(** X5. A configuration that is absent, or made of white space and
    semicolons only, is no error: it parses to the empty list of
    regions. *)
Theorem blank_configuration_has_no_regions (config : string) :
  Forall (fun c => PyStr.is_unicode_space c = true ∨ c = ";"%char)
    (list_ascii_of_string config) →
  parse_region_config (Some config) = inr [] ∧ parse_region_config None = inr [].
Proof.
  intros Hblank. split; [|done].
  unfold parse_region_config. destruct (negb _); [done|].
  apply parse_chunks_returns. exists []. split; [done|].
  assert (List.filter PyStr.truthy (PyStr.strip <$> PyStr.split ";" config) = [])
    as ->; [|constructor].
  pose proof (split_chars ";" config) as Hpieces.
  induction Hpieces as [|piece pieces Hpiece _ IH]; [done|].
  rewrite fmap_cons. simpl. rewrite IH.
  rewrite strip_blank; [done|].
  apply Forall_forall. intros c Hc. destruct (Hpiece c Hc) as [Hin Hsep].
  rewrite Forall_forall in Hblank. by destruct (Hblank c Hin).
Qed.

Lemma blank_configuration_has_no_regions_witness :
  parse_region_config (Some " ; ;; "%string) = inr [] ∧
  parse_region_config None = inr [].
Proof.
  apply (blank_configuration_has_no_regions " ; ;; ").
  repeat (constructor; [(by left) || (by right)|]). constructor.
Defined.

(** X6. The start of a session never fails on the redaction
    configuration: [main] runs with the regions of the configuration
    when it parses, and otherwise with none, after one message on the
    overlay that carries the exception; no image object is touched and
    the regions it runs with all satisfy the invariant of [Region]. *)
Theorem session_regions_never_fail (redact : string) (w : World) :
  ∃ regions evs,
    configured_regions redact w = (inr regions, mkWorld (heap w) (trace w ++ evs)) ∧
    Forall Region_valid regions ∧
    match parse_region_config (Some redact) with
    | inr parsed => regions = parsed ∧ evs = []
    | inl exc =>
        regions = [] ∧
        evs = [OverlayUpdated (Formatted "Invalid redaction config: " exc)]
    end.
Proof.
  unfold configured_regions.
  destruct (parse_region_config (Some redact)) as [exc|parsed] eqn:Hparse.
  - assert (is_ValueError exc = true) as ->.
    { unfold parse_region_config in Hparse. destruct (negb _); [done|].
      by eapply parse_chunks_raises_ValueError. }
    by eexists [], [_].
  - exists parsed, []. rewrite app_nil_r. split; [by destruct w|].
    split; [|done]. unfold parse_region_config in Hparse.
    destruct (negb _); [by injection Hparse as <-|].
    by eapply parse_chunks_valid.
Qed.




(** ** The window filter and the keyword list *)

Lemma should_skip_window_runs tick keywords w :
  should_skip_window tick keywords w
  = (inr (skips tick keywords),
     mkWorld (heap w) (trace w ++ window_events tick keywords)).
Proof.
  unfold should_skip_window, skips, window_events, title_matches,
    get_active_window_title, bind, emit, ret.
  destruct keywords as [|k ks]; simpl.
  - rewrite app_nil_r. by destruct w.
  - by destruct (active_window_title tick).
Qed.

Lemma title_matches_upper keywords title :
  title_matches (PyStr.upper <$> keywords) (PyStr.upper title)
  = title_matches keywords title.
Proof.
  unfold title_matches. induction keywords as [|k ks IH]; [done|].
  rewrite fmap_cons. simpl. by rewrite IH, !lower_upper.
Qed.

(** X8. The window filter is blind to letter case: with the title and
    every keyword put in upper case, [should_skip_window] gives the same
    answer. *)
Theorem window_filter_ignores_case (tick tick' : Tick) (keywords : list string)
    (w : World) :
  active_window_title tick' = PyStr.upper <$> active_window_title tick →
  (should_skip_window tick' (PyStr.upper <$> keywords) w).1
  = (should_skip_window tick keywords w).1.
Proof.
  intros Htitle. rewrite !should_skip_window_runs. simpl. f_equal.
  unfold skips. rewrite Htitle.
  destruct keywords as [|k ks]; [done|]. rewrite fmap_cons.
  destruct (active_window_title tick) as [title|]; simpl; [|done].
  f_equal. apply (title_matches_upper (k :: ks)).
Qed.

Lemma window_filter_ignores_case_witness :
  (should_skip_window (mkTick (Some "MAIL - INBOX"%string) (inl ZeroDivisionError)
                         (fun _ _ _ => inl ZeroDivisionError))
     (PyStr.upper <$> ["Editor"; "mail"]%string) ExampleTick.start).1
  = (should_skip_window (mkTick (Some "Mail - Inbox"%string) (inl ZeroDivisionError)
                           (fun _ _ _ => inl ZeroDivisionError))
       ["Editor"; "mail"]%string ExampleTick.start).1.
Proof.
  apply (window_filter_ignores_case
           (mkTick (Some "Mail - Inbox"%string) (inl ZeroDivisionError)
              (fun _ _ _ => inl ZeroDivisionError))
           (mkTick (Some "MAIL - INBOX"%string) (inl ZeroDivisionError)
              (fun _ _ _ => inl ZeroDivisionError))).
  reflexivity.
Defined.

Lemma elem_of_filter_bool {A} (f : A → bool) (l : list A) (a : A) :
  a ∈ List.filter f l ↔ a ∈ l ∧ f a = true.
Proof. rewrite !list_elem_of_In. apply filter_In. Qed.

(** X9. The keywords read from the command line or the environment are
    clean: none is empty, none begins or ends with white space, and none
    contains a comma. *)
Theorem window_keywords_are_clean (value : string) :
  Forall (fun keyword =>
            keyword ≠ EmptyString ∧
            PyStr.strip keyword = keyword ∧
            ","%char ∉ list_ascii_of_string keyword)
    (window_keywords_type value).
Proof.
  unfold window_keywords_type. apply Forall_fmap, Forall_forall.
  intros chunk [Hchunk Hkept]%elem_of_filter_bool. simpl.
  split; [|split].
  - intros Hempty. by rewrite Hempty in Hkept.
  - apply strip_idemp.
  - intros Hcomma%strip_chars.
    pose proof (split_chars "," value) as Hpieces.
    rewrite Forall_forall in Hpieces.
    by destruct (Hpieces chunk Hchunk _ Hcomma).
Qed.

(** X10. A keyword setting that is empty, or made of white space and
    commas only, yields no keyword, and with no keyword the window
    filter lets every tick pass without asking for the window title. *)
Theorem blank_keywords_disable_the_filter (value : string) :
  Forall (fun c => PyStr.is_unicode_space c = true ∨ c = ","%char)
    (list_ascii_of_string value) →
  window_keywords_type value = [] ∧
  ∀ tick w, should_skip_window tick (window_keywords_type value) w = (inr false, w).
Proof.
  intros Hblank.
  assert (Hnone : window_keywords_type value = []).
  { unfold window_keywords_type.
    pose proof (split_chars "," value) as Hpieces.
    induction Hpieces as [|piece pieces Hpiece _ IH]; [done|].
    simpl. rewrite strip_blank; [exact IH|].
    apply Forall_forall. intros c Hc. destruct (Hpiece c Hc) as [Hin Hsep].
    rewrite Forall_forall in Hblank. by destruct (Hblank c Hin). }
  split; [done|]. intros tick w. by rewrite Hnone.
Qed.

Lemma blank_keywords_disable_the_filter_witness :
  window_keywords_type " , ,"%string = [] ∧
  ∀ tick w, should_skip_window tick (window_keywords_type " , ,"%string) w
            = (inr false, w).
Proof.
  apply (blank_keywords_disable_the_filter " , ,").
  repeat (constructor; [(by left) || (by right)|]). constructor.
Defined.

(** X11. The lookup of the window title never yields an empty title on
    Windows or Linux, where an empty text counts as no title; on Linux
    the title carries no white space at its ends; on a system other
    than Windows, Darwin and Linux there is no title; and an exception
    of a call of the branch taken gives no title. *)
Theorem window_title_is_never_empty (desktop : Desktop) :
  (platform_system desktop ≠ "Darwin"%string →
   window_title_lookup desktop ≠ Some EmptyString) ∧
  (platform_system desktop = "Linux"%string →
   ∀ title, window_title_lookup desktop = Some title → PyStr.strip title = title) ∧
  (platform_system desktop ∉ ["Windows"; "Darwin"; "Linux"]%string →
   window_title_lookup desktop = None) ∧
  (∀ e,
     platform_system desktop = "Windows"%string ∧
       (GetWindowTextLengthW desktop = inl e ∨ GetWindowTextW desktop = inl e) ∨
     platform_system desktop = "Darwin"%string ∧
       frontmostApplication desktop = inl e ∨
     platform_system desktop = "Linux"%string ∧ xdotool desktop = inl e →
     window_title_lookup desktop = None).
Proof.
  unfold window_title_lookup, or_None. split; [|split; [|split]].
  - intros Hdarwin. rewrite (bool_decide_eq_false_2 _ Hdarwin).
    repeat case_bool_decide; try done.
    + destruct (GetWindowTextLengthW desktop) as [|len]; [done|].
      destruct (len =? 0); [done|].
      destruct (GetWindowTextW desktop) as [|[|c value]]; done.
    + destruct (xdotool desktop) as [|stdout]; [done|].
      by destruct (PyStr.strip stdout).
  - intros -> title. simpl.
    destruct (xdotool desktop) as [|stdout]; [done|].
    destruct (PyStr.truthy (PyStr.strip stdout)); [|done].
    intros [= <-]. apply strip_idemp.
  - intros Hother. repeat case_bool_decide; try done;
      exfalso; apply Hother; rewrite !elem_of_cons; auto.
  - intros e [[-> Hraised]|[[-> ->]|[-> ->]]]; [|done..]. simpl.
    destruct Hraised as [->| ->]; [done|].
    destruct (GetWindowTextLengthW desktop) as [|len]; [done|].
    by destruct (len =? 0).
Qed.

(** ** Resizing and encoding *)

Section encoding_more.
Context {PIL : Pillow}.


(** X13. For a bitmap that has a pixel, [encode_frame] returns: it only
    asks Pillow for the formats WEBP and JPEG, which both have a save
    handler, so it never meets the missing handler of the spelling JPG,
    and the thumbnail it saves has a pixel and fits 1280 by 720, which
    both encoders accept; the payload is that of the thumbnail, with the
    media type of the format asked for, and the bitmap is left as it
    was. *)
Theorem encode_frame_asks_known_formats (w : World) (image : nat) (im : Image)
    (prefer_webp : bool) :
  heap w !! image = Some im →
  0 < width im → 0 < height im →
  ∃ payload w',
    encode_frame image prefer_webp w
    = (inr (payload, if prefer_webp then "image/webp"%string
                     else "image/jpeg"%string), w') ∧
    payload = save_handler (if prefer_webp then "WEBP"%string else "JPEG"%string)
                (thumbnail_data im (1280, 720)) 80 true
                (if prefer_webp then Some 6 else None) ∧
    heap w' !! image = Some im ∧
    trace w' = trace w.
Proof.
  intros Him Hw Hh.
  destruct (encode_frame_runs image im prefer_webp w Him)
    as (w' & Hrun & Htrace & Hkeep).
  rewrite (encode_result_returns im prefer_webp Hw Hh) in Hrun.
  exists (encoding im prefer_webp).1, w'.
  split; [rewrite Hrun; by destruct prefer_webp|].
  split; [by destruct prefer_webp|]. split; [by apply Hkeep|done].
Qed.

End encoding_more.


Lemma encode_frame_asks_known_formats_witness :
  ∃ payload w',
    encode_frame (PIL := Example.pillow) 0 false
      (Example.world_with Example.white_2x2)
    = (inr (payload, "image/jpeg"%string), w') ∧
    payload = save_handler (Pillow := Example.pillow) "JPEG"
                (thumbnail_data (Pillow := Example.pillow) Example.white_2x2 (1280, 720))
                80 true None ∧
    heap w' !! 0%nat = Some Example.white_2x2 ∧
    trace w' = trace (Example.world_with Example.white_2x2).
Proof.
  apply (encode_frame_asks_known_formats (PIL := Example.pillow)
           (Example.world_with Example.white_2x2) 0 Example.white_2x2 false).
  - reflexivity.
  - reflexivity.
  - reflexivity.
Defined.


(** ** More on the change detector *)

Lemma sample_difference_comm a b : sample_difference a b = sample_difference b a.
Proof.
  unfold sample_difference. f_equal.
  rewrite <- Z.abs_opp. f_equal. lia.
Qed.

Lemma pixel_difference_comm p q : pixel_difference p q = pixel_difference q p.
Proof.
  destruct p as [[r1 g1] b1], q as [[r2 g2] b2]. simpl.
  by rewrite (sample_difference_comm r1), (sample_difference_comm g1),
    (sample_difference_comm b1).
Qed.

Lemma zip_with_comm {A B} (f : A → A → B) (l k : list A) :
  (∀ x y, f x y = f y x) → zip_with f l k = zip_with f k l.
Proof.
  intros Hf. revert k. induction l as [|x l IH]; intros [|y k]; simpl; try done.
  by rewrite Hf, IH.
Qed.

Lemma difference_data_comm a b : difference_data a b = difference_data b a.
Proof.
  unfold difference_data. rewrite (Z.min_comm (width a)), (Z.min_comm (height a)).
  f_equal. apply zip_with_comm. intros r1 r2.
  apply zip_with_comm, pixel_difference_comm.
Qed.

Lemma histogram_rms_value (current previous : Image) :
  width current * height current ≠ 0 →
  histogram_rms current previous
  = inr (sqrt (IZR (sum_squares (histogram_data (difference_data current previous)))
               / IZR (width current * height current * 3))).
Proof.
  intros Hsize. unfold histogram_rms, root_mean.
  destruct (Z.eqb_spec (width current * height current * 3) 0); [lia|done].
Qed.

(** X14. The change detector is symmetric on bitmaps of the same size:
    comparing the current frame with the previous one gives the answer
    of comparing the previous frame with the current one. *)
Theorem change_detection_is_symmetric (w : World) (a b : nat) (ima imb : Image)
    (threshold : R) :
  heap w !! a = Some ima → heap w !! b = Some imb →
  size ima = size imb →
  (has_significant_change a (Some b) threshold w).1
  = (has_significant_change b (Some a) threshold w).1.
Proof.
  intros Ha Hb [= Hw Hh].
  rewrite (has_significant_change_runs w a b ima imb threshold Ha Hb).
  rewrite (has_significant_change_runs w b a imb ima threshold Hb Ha).
  cbn [fst]. unfold histogram_rms. by rewrite difference_data_comm, Hw, Hh.
Qed.

(** X15. With a previous frame of any size, the change detector returns
    an answer as soon as the current bitmap has a pixel: it neither
    raises nor makes a call nor changes an existing image object. *)
Theorem change_detection_returns (w : World) (current previous : nat)
    (cur prev : Image) (threshold : R) :
  heap w !! current = Some cur → heap w !! previous = Some prev →
  width cur * height cur ≠ 0 →
  ∃ answer w',
    has_significant_change current (Some previous) threshold w = (inr answer, w') ∧
    trace w' = trace w ∧
    ∀ l v, heap w !! l = Some v → heap w' !! l = Some v.
Proof.
  intros Hcur Hprev Hsize.
  destruct (quiet_has_significant_change current (Some previous) threshold w)
    as [Htrace Hkeep].
  rewrite (has_significant_change_runs w current previous cur prev threshold
             Hcur Hprev) in *.
  rewrite (histogram_rms_value cur prev Hsize) in *.
  by eexists _, _.
Qed.

(** X16. A threshold of zero or below makes every frame significant:
    the root mean square is never negative. *)
Theorem nonpositive_threshold_is_always_met (w : World) (current previous : nat)
    (cur prev : Image) (threshold : R) :
  heap w !! current = Some cur → heap w !! previous = Some prev →
  width cur * height cur ≠ 0 →
  (threshold <= 0)%R →
  (has_significant_change current (Some previous) threshold w).1 = inr true.
Proof.
  intros Hcur Hprev Hsize Hthreshold.
  rewrite (has_significant_change_runs w current previous cur prev threshold
             Hcur Hprev).
  rewrite (histogram_rms_value cur prev Hsize). cbn [fst]. f_equal.
  unfold Rgeb. destruct (Rge_dec _ _) as [|Hlt]; [done|].
  exfalso. apply Hlt. apply Rle_ge.
  etrans; [exact Hthreshold|apply sqrt_pos].
Qed.

(** X17. The answer is monotone in the threshold: a frame that is
    significant for a threshold is significant for every lower one. *)
Theorem lower_threshold_keeps_significance (w : World) (current : nat)
    (previous : option nat) (threshold threshold' : R) :
  (threshold' <= threshold)%R →
  (has_significant_change current previous threshold w).1 = inr true →
  (has_significant_change current previous threshold' w).1 = inr true.
Proof.
  intros Hle. destruct previous as [previous|]; [|done].
  unfold has_significant_change, ImageChops_difference, Image_histogram,
    Image_size, bind, load, alloc, ret, raise.
  destruct (heap w !! current) as [cur|]; [|done].
  destruct (heap w !! previous) as [prev|]; [|done]. cbn [heap trace].
  rewrite lookup_insert_eq. cbn [heap trace].
  destruct (_ !! current) as [cur'|]; [|done].
  destruct (root_mean _ _) as [e|rms]; [done|]. cbn [fst].
  unfold Rgeb. destruct (Rge_dec rms threshold) as [Hge|]; [|done].
  intros _. destruct (Rge_dec rms threshold') as [|Hlt]; [done|].
  exfalso. apply Hlt. lra.
Qed.

Lemma pixels_count (im : Image) :
  wf_image im → Z.of_nat (length (pixels im)) = width im * height im.
Proof.
  intros [Hheight Hwidth]. unfold pixels. rewrite <- Hheight. clear Hheight.
  induction Hwidth as [|row rest Hrow _ IH]; simpl; [lia|].
  rewrite length_app. lia.
Qed.

Lemma difference_pixels_count (a b : Image) :
  (length (pixels (difference_data a b)) ≤ length (pixels a))%nat.
Proof.
  unfold pixels, difference_data. simpl rows.
  generalize (rows b). induction (rows a) as [|ra rest IH]; intros [|rb restb];
    simpl; try lia.
  rewrite !length_app, length_zip_with. specialize (IH restb). lia.
Qed.

Lemma energy_bound (ps : list pixel) :
  0 ≤ Zsum (energy <$> ps) ≤ 195075 * Z.of_nat (length ps).
Proof.
  induction ps as [|p ps IH]; [done|]. rewrite fmap_cons.
  change (Zsum (energy p :: (energy <$> ps))) with (energy p + Zsum (energy <$> ps)).
  unfold energy at 1 3.
  pose proof (Z_of_byte_range (red p)). pose proof (Z_of_byte_range (green p)).
  pose proof (Z_of_byte_range (blue p)). simpl length. nia.
Qed.

Lemma histogram_rms_bound (cur prev : Image) (rms : R) :
  wf_image cur → histogram_rms cur prev = inr rms → (0 <= rms <= 255)%R.
Proof.
  intros Hwf. unfold histogram_rms, root_mean.
  destruct (Z.eqb_spec (width cur * height cur * 3) 0) as [|Htotal]; [done|].
  intros [= <-]. split; [apply sqrt_pos|].
  rewrite sum_squares_histogram.
  pose proof (energy_bound (pixels (difference_data cur prev))) as [Hlow Hhigh].
  pose proof (difference_pixels_count cur prev) as Hcount.
  pose proof (pixels_count cur Hwf) as Hpixels.
  set (s := Zsum (energy <$> pixels (difference_data cur prev))) in *.
  set (n := width cur * height cur * 3) in *.
  assert (Hn : 0 < n) by lia.
  assert (Hs : s ≤ 65025 * n) by lia.
  replace 255%R with (sqrt (255 * 255)) by (apply sqrt_square; lra).
  apply sqrt_le_1_alt.
  apply IZR_lt in Hn. apply IZR_le in Hs. rewrite mult_IZR in Hs.
  apply (Rmult_le_reg_r (IZR n)); [done|].
  unfold Rdiv. rewrite Rmult_assoc, Rinv_l by lra. lra.
Qed.

(** X18. The root mean square of two RGB bitmaps never exceeds 255:
    for a well-formed current bitmap and a threshold above 255, no frame
    that has a previous frame is significant. *)
Theorem threshold_above_255_is_never_met (w : World) (current previous : nat)
    (cur prev : Image) (threshold : R) :
  heap w !! current = Some cur → heap w !! previous = Some prev →
  wf_image cur → width cur * height cur ≠ 0 →
  (255 < threshold)%R →
  (has_significant_change current (Some previous) threshold w).1 = inr false.
Proof.
  intros Hcur Hprev Hwf Hsize Hthreshold.
  rewrite (has_significant_change_runs w current previous cur prev threshold
             Hcur Hprev).
  pose proof (histogram_rms_bound cur prev) as Hbound.
  rewrite (histogram_rms_value cur prev Hsize) in *. cbn [fst]. f_equal.
  destruct (Hbound _ Hwf eq_refl) as [_ Hhigh].
  unfold Rgeb. destruct (Rge_dec _ _) as [Hge|]; [|done]. lra.
Qed.

(** ** Concrete cases of the further properties *)

Lemma redaction_depends_on_content_witness :
  match (redact_regions (PIL := Example.pillow) 0 [mkRegion 0 0 1 1] 25 None
           (Example.world_with Example.white_2x2)).1,
        (redact_regions (PIL := Example.pillow) 3 [mkRegion 0 0 1 1] 25 None
           (mkWorld {[ 3%nat := Example.white_2x2; 5%nat := Example.empty_image ]} [])).1
  with
  | inr out1, inr out2 =>
      ∃ im',
        heap (redact_regions (PIL := Example.pillow) 0 [mkRegion 0 0 1 1] 25 None
                (Example.world_with Example.white_2x2)).2 !! out1
        = Some im' ∧
        heap (redact_regions (PIL := Example.pillow) 3 [mkRegion 0 0 1 1] 25 None
                (mkWorld {[ 3%nat := Example.white_2x2; 5%nat := Example.empty_image ]} [])).2
          !! out2
        = Some im'
  | inl e1, inl e2 => e1 = e2
  | _, _ => False
  end.
Proof.
  apply (redaction_depends_on_content (PIL := Example.pillow)
           (Example.world_with Example.white_2x2)
           (mkWorld {[ 3%nat := Example.white_2x2; 5%nat := Example.empty_image ]} [])
           0 3 Example.white_2x2).
  - reflexivity.
  - reflexivity.
Defined.



Lemma change_detection_is_symmetric_witness :
  (has_significant_change 0 (Some 1%nat) 8
     (mkWorld {[ 0%nat := Example.white_2x2;
                 1%nat := mkImage 2 2 [[black; black]; [black; black]] ]} [])).1
  = (has_significant_change 1 (Some 0%nat) 8
       (mkWorld {[ 0%nat := Example.white_2x2;
                   1%nat := mkImage 2 2 [[black; black]; [black; black]] ]} [])).1.
Proof.
  apply (change_detection_is_symmetric
           (mkWorld {[ 0%nat := Example.white_2x2;
                       1%nat := mkImage 2 2 [[black; black]; [black; black]] ]} [])
           0 1 Example.white_2x2 (mkImage 2 2 [[black; black]; [black; black]])).
  - reflexivity.
  - reflexivity.
  - reflexivity.
Defined.

Lemma change_detection_returns_witness :
  ∃ answer w',
    has_significant_change 0 (Some 1%nat) 8
      (mkWorld {[ 0%nat := Example.white_2x2; 1%nat := Example.empty_image ]} [])
    = (inr answer, w') ∧
    trace w' = [] ∧
    ∀ l v,
      heap (mkWorld {[ 0%nat := Example.white_2x2; 1%nat := Example.empty_image ]} [])
        !! l = Some v →
      heap w' !! l = Some v.
Proof.
  apply (change_detection_returns
           (mkWorld {[ 0%nat := Example.white_2x2; 1%nat := Example.empty_image ]} [])
           0 1 Example.white_2x2 Example.empty_image).
  - reflexivity.
  - reflexivity.
  - simpl. lia.
Defined.

Lemma nonpositive_threshold_is_always_met_witness :
  (has_significant_change 0 (Some 0%nat) 0
     (Example.world_with Example.white_2x2)).1 = inr true.
Proof.
  apply (nonpositive_threshold_is_always_met
           (Example.world_with Example.white_2x2) 0 0
           Example.white_2x2 Example.white_2x2).
  - reflexivity.
  - reflexivity.
  - simpl. lia.
  - lra.
Defined.

Lemma threshold_above_255_is_never_met_witness :
  (has_significant_change 0 (Some 1%nat) 256
     (mkWorld {[ 0%nat := Example.white_2x2;
                 1%nat := mkImage 2 2 [[black; black]; [black; black]] ]} [])).1
  = inr false.
Proof.
  apply (threshold_above_255_is_never_met
           (mkWorld {[ 0%nat := Example.white_2x2;
                       1%nat := mkImage 2 2 [[black; black]; [black; black]] ]} [])
           0 1 Example.white_2x2 (mkImage 2 2 [[black; black]; [black; black]])).
  - reflexivity.
  - reflexivity.
  - split; [reflexivity|]. repeat constructor.
  - simpl. lia.
  - lra.
Defined.

(** ** The tick, read as a function *)

Section verdict_of_a_tick.
Context {PIL : Pillow} {hash : Hashlib}.

(** [process_frame] takes the way that [verdict_of] computes from the
    frame, the stored state and the answers of the tick. *)
Lemma process_frame_verdict args regions tick st w :
  frame_stored st w →
  ∃ r w',
    process_frame args regions tick st w = (r, w') ∧
    trace w' = trace w ++ window_events tick (window_keywords args)
               ++ verdict_events args tick st (verdict_of args regions tick st w) ∧
    (∀ l v, heap w !! l = Some v → heap w' !! l = Some v) ∧
    match verdict_of args regions tick st w with
    | Skip | CaptureFailed _ => r = inr st ∧ heap w' = heap w
    | NotSignificant | Duplicate => r = inr st
    | Raised e => r = inl e
    | Analysed im payload mime result =>
        ∃ shot, heap w !! shot = None ∧ heap w' !! shot = Some im ∧
                r = inr (after_analysis st shot payload result)
    end.
Proof.
  intros Hstored. unfold process_frame, verdict_of.
  rewrite (bind_returns _ _ _ _ _
             (should_skip_window_runs tick (window_keywords args) w)).
  set (e1 := window_events tick (window_keywords args)).
  destruct (skips tick (window_keywords args)).
  { eexists _, _. split; [reflexivity|]. simpl. by rewrite <- app_assoc. }
  set (w1 := mkWorld (heap w) (trace w ++ e1)).
  destruct (grab tick) as [exc|im0] eqn:Hgrab.
  { assert (Hcap : try_except (capture_frame tick) w1
                   = (inr (inl exc),
                      mkWorld (heap w) (trace w ++ e1 ++ [Captured (inl exc)]))).
    { unfold try_except, capture_frame, bind, emit, raise. simpl.
      rewrite Hgrab. simpl. by rewrite <- app_assoc. }
    rewrite (bind_returns _ _ _ _ _ Hcap).
    unfold bind, update_text, emit, ret. simpl.
    eexists _, _. split; [reflexivity|]. simpl. rewrite Hgrab.
    by rewrite <- !app_assoc. }
  set (l0 := fresh (dom (heap w))).
  assert (Hl0 : heap w !! l0 = None) by apply fresh_is_new.
  set (w2 := mkWorld (<[l0 := im0]> (heap w)) (trace w ++ e1 ++ [Captured (inr im0)])).
  assert (Hcap : try_except (capture_frame tick) w1 = (inr (inr l0), w2)).
  { unfold try_except, capture_frame, bind, emit, alloc. simpl.
    rewrite Hgrab. simpl. by rewrite <- app_assoc. }
  rewrite (bind_returns _ _ _ _ _ Hcap). cbv beta iota.
  assert (Hw2 : ∀ l v, heap w !! l = Some v → heap w2 !! l = Some v).
  { intros l v Hl. simpl. rewrite lookup_insert_ne; [done|congruence]. }
  set (redact := match regions with [] => ret l0 | _ :: _ => _ end).
  assert (Hredact : ∃ w3,
    trace w3 = trace w2 ∧
    (∀ l v, heap w2 !! l = Some v → heap w3 !! l = Some v) ∧
    match redact_data im0 regions 25 (Some (0, 0, 0)) with
    | inl e => redact w2 = (inl e, w3)
    | inr im => ∃ shot, redact w2 = (inr shot, w3) ∧
                        heap w !! shot = None ∧ heap w3 !! shot = Some im
    end).
  { unfold redact. destruct regions as [|region rest].
    - exists w2. split; [done|]. split; [done|]. exists l0.
      split; [done|]. split; [done|]. apply lookup_insert_eq.
    - assert (Him0 : heap w2 !! l0 = Some im0) by apply lookup_insert_eq.
      destruct (redact_regions_quiet l0 (region :: rest) 25 (Some (0, 0, 0)) w2 im0
                  Him0) as (Ht & Hh & Hout).
      pose proof (redact_regions_computes l0 (region :: rest) 25 (Some (0, 0, 0))
                    w2 im0 Him0) as Hdata.
      destruct (redact_regions l0 (region :: rest) 25 (Some (0, 0, 0)) w2)
        as [r3 w3]. cbn [fst snd] in *.
      exists w3. split; [done|]. split; [done|].
      destruct (redact_data im0 (region :: rest) 25 (Some (0, 0, 0))) as [e|im].
      + by rewrite Hdata.
      + destruct Hdata as [-> Him]. eexists. split; [done|]. split; [|done].
        destruct (Hout _ eq_refl) as [Hnone _].
        destruct (heap w !! fresh (dom (heap w2))) as [v|] eqn:Hv; [|done].
        apply Hw2 in Hv. congruence. }
  destruct Hredact as (w3 & Ht3 & Hh3 & Hredact).
  destruct (redact_data im0 regions 25 (Some (0, 0, 0))) as [e|im].
  { rewrite (bind_raises _ _ _ _ _ Hredact).
    eexists _, _. split; [reflexivity|]. cbn [verdict_events]. rewrite ?Hgrab. split; [by rewrite Ht3|]. by auto. }
  destruct Hredact as (shot & Hredact & Hnew & Hshot).
  rewrite (bind_returns _ _ _ _ _ Hredact).
  assert (Hsig : ∃ w4,
    has_significant_change shot (last_image st) 8 w3
    = (change_decision im (previous_frame st w) 8, w4) ∧
    trace w4 = trace w3 ∧
    (∀ l v, heap w3 !! l = Some v → heap w4 !! l = Some v)).
  { destruct (quiet_has_significant_change shot (last_image st) 8 w3) as [Ht4 Hh4].
    exists (has_significant_change shot (last_image st) 8 w3).2.
    split; [|done]. unfold previous_frame, frame_stored in *.
    destruct (last_image st) as [l|]; cbn [mbind option_bind].
    - destruct (Hstored l eq_refl) as [prev Hprev]. rewrite Hprev.
      by rewrite (has_significant_change_runs w3 shot l im prev 8 Hshot
                    (Hh3 _ _ (Hw2 _ _ Hprev))).
    - done. }
  destruct Hsig as (w4 & Hsig & Ht4 & Hh4).
  destruct (change_decision im (previous_frame st w) 8) as [e|changed].
  { rewrite (bind_raises _ _ _ _ _ Hsig).
    eexists _, _. split; [reflexivity|]. cbn [verdict_events]. rewrite ?Hgrab. split; [by rewrite Ht4, Ht3|]. by auto. }
  rewrite (bind_returns _ _ _ _ _ Hsig).
  destruct changed; cbn [negb].
  2:{ eexists _, _. split; [reflexivity|]. cbn [verdict_events]. rewrite ?Hgrab. split; [simpl; by rewrite Ht4, Ht3|].
      by auto. }
  destruct (encode_frame_runs shot im (negb (no_webp args)) w4 (Hh4 _ _ Hshot))
    as (w5 & Henc & Ht5 & Hh5).
  destruct (encode_result im (negb (no_webp args))) as [e|[payload mime]].
  { rewrite (bind_raises _ _ _ _ _ Henc).
    eexists _, _. split; [reflexivity|]. cbn [verdict_events]. rewrite ?Hgrab.
    split; [by rewrite Ht5, Ht4, Ht3|]. by auto 6. }
  rewrite (bind_returns _ _ _ _ _ Henc).
  cbv beta iota zeta. cbn [fst snd].
  assert (Hh : ∀ l v, heap w !! l = Some v → heap w5 !! l = Some v) by auto.
  assert (Hshot5 : heap w5 !! shot = Some im) by auto.
  assert (Ht : trace w5 = trace w ++ e1 ++ [Captured (inr im0)])
    by by rewrite Ht5, Ht4, Ht3.
  clear Ht3 Hh3 Ht4 Hh4 Ht5 Hh5 Hredact Hsig Henc Hcap Hw2 Hshot.
  destruct (bool_decide (last_payload_digest st = Some (compute_digest payload))).
  { eexists _, _. split; [reflexivity|]. cbn [verdict_events]. rewrite ?Hgrab. split; [simpl; by rewrite Ht|]. by auto. }
  unfold try_except, analyze_frame, update_text, bind, emit, ret, raise.
  cbn [heap trace verdict_events after_analysis].
  destruct (respond tick (prompt args) payload mime) as [exc|message].
  { eexists _, _. split; [reflexivity|]. cbn [verdict_events]. rewrite ?Hgrab.
    split; [simpl; by rewrite Ht, <- !app_assoc|]. split; [done|].
    by exists shot. }
  destruct (PyStr.truthy message) eqn:Hmessage; cbn [negb andb].
  2:{ eexists _, _. split; [reflexivity|]. cbn [verdict_events]. rewrite ?Hgrab.
      split; [simpl; by rewrite Ht, <- !app_assoc|]. split; [done|].
      exists shot. cbn [after_analysis heap]. by rewrite ?Hmessage. }
  destruct (bool_decide (message ≠ last_message st)) eqn:Hdiffers; cbn [heap trace].
  - eexists _, _. split; [reflexivity|]. cbn [verdict_events]. rewrite ?Hgrab.
    split; [simpl; by rewrite Ht, <- !app_assoc|]. split; [done|].
    exists shot. cbn [after_analysis heap]. by rewrite ?Hmessage.
  - apply bool_decide_eq_false in Hdiffers.
    assert (message = last_message st) as <-
      by by destruct (decide (message = last_message st)).
    eexists _, _. split; [reflexivity|]. cbn [verdict_events]. rewrite ?Hgrab.
    split; [simpl; by rewrite Ht, <- !app_assoc|]. split; [done|].
    exists shot. cbn [after_analysis heap]. by rewrite ?Hmessage.
Qed.

End verdict_of_a_tick.

Section ticks_more.
Context {PIL : Pillow} {hash : Hashlib}.

Lemma verdict_of_Analysed args regions tick st w im payload mime result :
  verdict_of args regions tick st w = Analysed im payload mime result →
  last_payload_digest st ≠ Some (compute_digest payload) ∧
  payload = (encoding im (negb (no_webp args))).1 ∧
  mime = (encoding im (negb (no_webp args))).2 ∧
  result = respond tick (prompt args) payload mime.
Proof.
  unfold verdict_of.
  destruct (skips _ _); [done|].
  destruct (grab tick) as [|captured]; [done|].
  destruct (redact_data _ _ _ _) as [|im']; [done|].
  destruct (change_decision _ _ _) as [|[|]]; [done| |done].
  destruct (encode_result _ _) as [|[payload' mime']] eqn:Hencoded; [done|].
  apply encode_result_inv in Hencoded.
  destruct (bool_decide _) eqn:Hdigest; [done|].
  apply bool_decide_eq_false in Hdigest. intros [= <- <- <- <-].
  by rewrite <- Hencoded.
Qed.

(** An analysis call among the calls of a tick is that of the verdict. *)
Lemma analysis_of_a_tick args tick st v p payload mime result :
  Analyzed p payload mime result
    ∈ window_events tick (window_keywords args) ++ verdict_events args tick st v →
  ∃ im, v = Analysed im payload mime result ∧ p = prompt args.
Proof.
  intros [Hin|Hin]%elem_of_app.
  - unfold window_events in Hin. destruct (window_keywords args).
    + by apply elem_of_nil in Hin.
    + apply list_elem_of_singleton in Hin. done.
  - destruct v as [| | | | |im payload' mime' result']; simpl in Hin;
      repeat match goal with
             | H : _ ∈ _ :: _ |- _ => apply elem_of_cons in H as [H|H]; [done|]
             | H : _ ∈ [] |- _ => by apply elem_of_nil in H
             end.
    apply elem_of_cons in Hin as [Hin|Hin].
    + injection Hin as -> <- <- <-. by exists im.
    + destruct result' as [e|message];
        [|destruct (PyStr.truthy message && bool_decide (message ≠ last_message st))];
        repeat match goal with
               | H : _ ∈ _ :: _ |- _ => apply elem_of_cons in H as [H|H]; [done|]
               | H : _ ∈ [] |- _ => by apply elem_of_nil in H
               end.
Qed.

Lemma histogram_rms_same (im : Image) :
  width im * height im ≠ 0 → histogram_rms im im = inr 0%R.
Proof.
  intros Hsize. rewrite (histogram_rms_value im im Hsize), difference_with_itself.
  f_equal. unfold Rdiv. by rewrite Rmult_0_l, sqrt_0.
Qed.

(** X19. A tick that the window filter skips makes no capture and no
    analysis call: it reads the title, shows the waiting text and
    leaves the state and the images as they were. *)
Theorem skipped_tick_does_nothing args regions tick st w title :
  window_keywords args ≠ [] →
  active_window_title tick = Some title →
  title_matches (window_keywords args) title = false →
  process_frame args regions tick st w
  = (inr st,
     mkWorld (heap w)
       (trace w ++ [WindowTitleRead (Some title);
                    OverlayUpdated (Text "Waiting for target window…")])).
Proof.
  intros Hkeywords Htitle Hmatch. unfold process_frame.
  rewrite (bind_returns _ _ _ _ _
             (should_skip_window_runs tick (window_keywords args) w)).
  unfold skips, window_events. rewrite Htitle, Hmatch.
  destruct (window_keywords args); [done|].
  unfold bind, update_text, emit, ret. simpl. by rewrite <- app_assoc.
Qed.

(** X20. A tick changes no image object that existed before it, and the
    state it returns refers to an image object of the heap again: the
    frame kept for the next comparison is neither lost nor altered. *)
Theorem tick_keeps_the_stored_frame args regions tick st w :
  frame_stored st w →
  (∀ l v, heap w !! l = Some v →
          heap (process_frame args regions tick st w).2 !! l = Some v) ∧
  ∀ st', (process_frame args regions tick st w).1 = inr st' →
         frame_stored st' (process_frame args regions tick st w).2.
Proof.
  intros Hstored.
  destruct (process_frame_verdict args regions tick st w Hstored)
    as (r & w' & -> & _ & Hheap & Hverdict). cbn [fst snd].
  split; [done|]. intros st' ->.
  assert (Hkept : frame_stored st w').
  { intros l Hl. destruct (Hstored l Hl) as [v Hv]. exists v. by apply Hheap. }
  destruct (verdict_of args regions tick st w)
    as [| | | | |im payload mime result].
  - destruct Hverdict as [[= <-] _]. done.
  - destruct Hverdict as [[= <-] _]. done.
  - done.
  - by injection Hverdict as <-.
  - by injection Hverdict as <-.
  - destruct Hverdict as (shot & _ & Hshot & [= ->]).
    unfold after_analysis. destruct result as [|message]; [done|].
    destruct (PyStr.truthy message); [|done].
    intros l [= <-]. by exists im.
Qed.

(** X21. A tick sends no payload whose digest is the stored one. *)
Theorem duplicate_payload_is_not_sent args regions tick st w :
  frame_stored st w →
  ∃ evs,
    trace (process_frame args regions tick st w).2 = trace w ++ evs ∧
    ∀ p payload mime result,
      Analyzed p payload mime result ∈ evs →
      last_payload_digest st ≠ Some (compute_digest payload).
Proof.
  intros Hstored.
  destruct (process_frame_verdict args regions tick st w Hstored)
    as (r & w' & -> & Htrace & _ & _). cbn [snd].
  eexists. split; [exact Htrace|].
  intros p payload mime result (im & Hv & _)%analysis_of_a_tick.
  by destruct (verdict_of_Analysed _ _ _ _ _ _ _ _ _ Hv).
Qed.

(** X22. When the analysis service fails, the tick does not raise: it
    returns the state unchanged, and the failure is the last thing shown
    on the overlay. *)
Theorem analysis_failure_keeps_state args regions tick st w e :
  frame_stored st w →
  (∀ payload mime, respond tick (prompt args) payload mime = inl e) →
  ∃ r w' evs,
    process_frame args regions tick st w = (r, w') ∧
    trace w' = trace w ++ evs ∧
    (∀ st', r = inr st' → st' = st) ∧
    ∀ p payload mime result,
      Analyzed p payload mime result ∈ evs →
      r = inr st ∧
      last evs = Some (OverlayUpdated (Formatted "Analysis failed: " e)).
Proof.
  intros Hstored Hfails.
  destruct (process_frame_verdict args regions tick st w Hstored)
    as (r & w' & Hrun & Htrace & _ & Hverdict).
  eexists r, w', _. split; [done|]. split; [exact Htrace|].
  destruct (verdict_of args regions tick st w)
    as [| | | | |im payload mime result] eqn:Hv.
  1-5: split; [intros st' ->; destruct_and?; by simplify_eq
              |by intros p payload mime result (im & Him & _)%analysis_of_a_tick].
  destruct (verdict_of_Analysed _ _ _ _ _ _ _ _ _ Hv) as (_ & _ & _ & Hresult).
  rewrite Hfails in Hresult. subst result.
  destruct Hverdict as (shot & _ & _ & ->). cbn [after_analysis].
  split; [by intros st' [= <-]|]. intros _ _ _ _ _. split; [done|].
  rewrite last_app. done.
Qed.

(** X23. A screen that has not changed is not analysed: when the frame
    of the tick, redacted, equals the stored frame, the tick captures
    and stops, makes no analysis call and shows nothing. *)
Theorem still_screen_is_not_analysed args regions tick st w captured im previous :
  skips tick (window_keywords args) = false →
  grab tick = inr captured →
  redact_data captured regions 25 (Some (0, 0, 0)) = inr im →
  last_image st = Some previous →
  heap w !! previous = Some im →
  width im * height im ≠ 0 →
  ∃ w',
    process_frame args regions tick st w = (inr st, w') ∧
    trace w' = trace w ++ window_events tick (window_keywords args)
               ++ [Captured (inr captured)].
Proof.
  intros Hskip Hgrab Hredact Hlast Hprevious Hsize.
  assert (Hstored : frame_stored st w).
  { intros l Hl. rewrite Hlast in Hl. injection Hl as <-. by exists im. }
  destruct (process_frame_verdict args regions tick st w Hstored)
    as (r & w' & Hrun & Htrace & _ & Hverdict).
  assert (Hv : verdict_of args regions tick st w = NotSignificant).
  { unfold verdict_of, previous_frame, change_decision.
    rewrite Hskip, Hgrab, Hredact, Hlast. cbn [mbind option_bind].
    rewrite Hprevious, (histogram_rms_same im Hsize).
    unfold Rgeb. destruct (Rge_dec 0 8); [lra|done]. }
  rewrite Hv in Hverdict, Htrace. subst r.
  exists w'. split; [done|]. by rewrite Htrace, <- Hgrab.
Qed.



(** X26. [analyze_frame] strips the answer of the service, so an answer
    of white space alone is an empty message: the tick stores nothing
    and shows nothing after the call. *)
Theorem blank_answer_stores_nothing args regions tick st w service :
  frame_stored st w →
  respond tick = stripped_answers service →
  (∀ p payload mime, ∃ output_text,
     service p payload mime = inr output_text ∧
     Forall (fun c => PyStr.is_unicode_space c = true)
       (list_ascii_of_string output_text)) →
  ∃ r w' evs,
    process_frame args regions tick st w = (r, w') ∧
    trace w' = trace w ++ evs ∧
    (∀ st', r = inr st' → st' = st) ∧
    ∀ p payload mime result,
      Analyzed p payload mime result ∈ evs →
      result = inr EmptyString ∧
      last evs = Some (Analyzed p payload mime result).
Proof.
  intros Hstored Hrespond Hblank.
  destruct (process_frame_verdict args regions tick st w Hstored)
    as (r & w' & Hrun & Htrace & _ & Hverdict).
  eexists r, w', _. split; [done|]. split; [exact Htrace|].
  destruct (verdict_of args regions tick st w)
    as [| | | | |im payload mime result] eqn:Hv.
  1-5: split; [intros st' ->; destruct_and?; by simplify_eq
              |by intros p payload mime result (im & Him & _)%analysis_of_a_tick].
  destruct (verdict_of_Analysed _ _ _ _ _ _ _ _ _ Hv) as (_ & _ & _ & Hresult).
  rewrite Hrespond in Hresult. unfold stripped_answers in Hresult.
  destruct (Hblank (prompt args) payload mime) as (output_text & Hservice & Hspace).
  rewrite Hservice, (strip_blank _ Hspace) in Hresult. subst result.
  destruct Hverdict as (shot & _ & _ & ->). cbn [after_analysis]. simpl PyStr.truthy.
  split; [by intros st' [= <-]|].
  intros p payload' mime' result (im' & Him' & ->)%analysis_of_a_tick.
  injection Him' as _ <- <- <-. split; [done|].
  by rewrite last_app.
Qed.

End ticks_more.

(** ** Concrete cases of the change detector and of the tick *)

Lemma lower_threshold_keeps_significance_witness :
  (has_significant_change 0 (Some 1%nat) 4
     (mkWorld {[ 0%nat := Example.white_2x2;
                 1%nat := mkImage 2 2 [[black; black]; [black; black]] ]} [])).1
  = inr true.
Proof.
  apply (lower_threshold_keeps_significance
           (mkWorld {[ 0%nat := Example.white_2x2;
                       1%nat := mkImage 2 2 [[black; black]; [black; black]] ]} [])
           0 (Some 1%nat) 8 4).
  - lra.
  - rewrite (has_significant_change_runs
               (mkWorld {[ 0%nat := Example.white_2x2;
                           1%nat := mkImage 2 2 [[black; black]; [black; black]] ]} [])
               0 1 Example.white_2x2
               (mkImage 2 2 [[black; black]; [black; black]]) 8) by reflexivity.
    rewrite histogram_rms_value by (simpl; lia). cbn [fst]. f_equal.
    replace (sum_squares _) with 780300 by (vm_compute; reflexivity).
    unfold Rgeb. destruct (Rge_dec _ _) as [|Hlt]; [done|].
    exfalso. apply Hlt, Rle_ge.
    replace 8%R with (sqrt (8 * 8)) by (apply sqrt_square; lra).
    apply sqrt_le_1_alt.
    change (width Example.white_2x2 * height Example.white_2x2 * 3) with 12. lra.
Defined.

Lemma skipped_tick_does_nothing_witness :
  process_frame (PIL := Example.pillow) (hash := Example.hashlib)
    (mkArgs ["Editor"; "Browser"] "Describe the screen" false) []
    (mkTick (Some "Terminal") (inr Example.white_2x2) (fun _ _ _ => inr "ignored"))
    initial_state ExampleTick.start
  = (inr initial_state,
     mkWorld (heap ExampleTick.start)
       (trace ExampleTick.start
        ++ [WindowTitleRead (Some "Terminal");
            OverlayUpdated (Text "Waiting for target window…")])).
Proof.
  apply (skipped_tick_does_nothing (PIL := Example.pillow) (hash := Example.hashlib)
           (mkArgs ["Editor"; "Browser"] "Describe the screen" false) []
           (mkTick (Some "Terminal") (inr Example.white_2x2)
              (fun _ _ _ => inr "ignored"))
           initial_state ExampleTick.start "Terminal").
  - discriminate.
  - reflexivity.
  - reflexivity.
Defined.

Lemma tick_keeps_the_stored_frame_witness :
  (∀ l v, heap (Example.world_with Example.white_2x2) !! l = Some v →
          heap (process_frame (PIL := Example.pillow) (hash := Example.hashlib)
                  ExampleTick.args [mkRegion 0 0 1 1] (ExampleTick.tick "Save your work")
                  (mkState (Some "digest") (Some 0%nat) "earlier advice")
                  (Example.world_with Example.white_2x2)).2 !! l = Some v) ∧
  ∀ st', (process_frame (PIL := Example.pillow) (hash := Example.hashlib)
            ExampleTick.args [mkRegion 0 0 1 1] (ExampleTick.tick "Save your work")
            (mkState (Some "digest") (Some 0%nat) "earlier advice")
            (Example.world_with Example.white_2x2)).1 = inr st' →
         frame_stored st'
           (process_frame (PIL := Example.pillow) (hash := Example.hashlib)
              ExampleTick.args [mkRegion 0 0 1 1] (ExampleTick.tick "Save your work")
              (mkState (Some "digest") (Some 0%nat) "earlier advice")
              (Example.world_with Example.white_2x2)).2.
Proof.
  apply (tick_keeps_the_stored_frame (PIL := Example.pillow) (hash := Example.hashlib)
           ExampleTick.args [mkRegion 0 0 1 1] (ExampleTick.tick "Save your work")
           (mkState (Some "digest") (Some 0%nat) "earlier advice")
           (Example.world_with Example.white_2x2)).
  intros l [= <-]. by exists Example.white_2x2.
Defined.

Lemma duplicate_payload_is_not_sent_witness :
  ∃ evs,
    trace (process_frame (PIL := Example.pillow) (hash := Example.hashlib)
             ExampleTick.args [] (ExampleTick.tick "Save your work")
             (mkState (Some (compute_digest (hash := Example.hashlib) ExampleTick.payload))
                None "earlier advice")
             ExampleTick.start).2
    = trace ExampleTick.start ++ evs ∧
    ∀ p payload mime result,
      Analyzed p payload mime result ∈ evs →
      Some (compute_digest (hash := Example.hashlib) ExampleTick.payload)
      ≠ Some (compute_digest (hash := Example.hashlib) payload).
Proof.
  apply (duplicate_payload_is_not_sent (PIL := Example.pillow) (hash := Example.hashlib)
           ExampleTick.args [] (ExampleTick.tick "Save your work")
           (mkState (Some (compute_digest (hash := Example.hashlib) ExampleTick.payload))
              None "earlier advice")
           ExampleTick.start).
  intros l Hl. discriminate Hl.
Defined.

Lemma analysis_failure_keeps_state_witness :
  ∃ r w' evs,
    process_frame (PIL := Example.pillow) (hash := Example.hashlib)
      ExampleTick.args []
      (mkTick None (inr Example.white_2x2)
         (fun _ _ _ => inl (ExternalError "the service is not reachable")))
      initial_state ExampleTick.start = (r, w') ∧
    trace w' = trace ExampleTick.start ++ evs ∧
    (∀ st', r = inr st' → st' = initial_state) ∧
    ∀ p payload mime result,
      Analyzed p payload mime result ∈ evs →
      r = inr initial_state ∧
      last evs = Some (OverlayUpdated
                         (Formatted "Analysis failed: "
                            (ExternalError "the service is not reachable"))).
Proof.
  apply (analysis_failure_keeps_state (PIL := Example.pillow) (hash := Example.hashlib)
           ExampleTick.args []
           (mkTick None (inr Example.white_2x2)
              (fun _ _ _ => inl (ExternalError "the service is not reachable")))
           initial_state ExampleTick.start
           (ExternalError "the service is not reachable")).
  - intros l Hl. discriminate Hl.
  - reflexivity.
Defined.

Lemma still_screen_is_not_analysed_witness :
  ∃ w',
    process_frame (PIL := Example.pillow) (hash := Example.hashlib)
      ExampleTick.args [] (ExampleTick.tick "Save your work")
      (mkState (Some "digest") (Some 0%nat) "earlier advice")
      (Example.world_with Example.white_2x2)
    = (inr (mkState (Some "digest") (Some 0%nat) "earlier advice"), w') ∧
    trace w' = trace (Example.world_with Example.white_2x2)
               ++ window_events (ExampleTick.tick "Save your work")
                    (window_keywords ExampleTick.args)
               ++ [Captured (inr Example.white_2x2)].
Proof.
  apply (still_screen_is_not_analysed (PIL := Example.pillow) (hash := Example.hashlib)
           ExampleTick.args [] (ExampleTick.tick "Save your work")
           (mkState (Some "digest") (Some 0%nat) "earlier advice")
           (Example.world_with Example.white_2x2)
           Example.white_2x2 Example.white_2x2 0).
  - reflexivity.
  - reflexivity.
  - reflexivity.
  - reflexivity.
  - reflexivity.
  - simpl. lia.
Defined.



Lemma blank_answer_stores_nothing_witness :
  ∃ r w' evs,
    process_frame (PIL := Example.pillow) (hash := Example.hashlib)
      ExampleTick.args []
      (mkTick None (inr Example.white_2x2) (stripped_answers (fun _ _ _ => inr "  ")))
      initial_state ExampleTick.start = (r, w') ∧
    trace w' = trace ExampleTick.start ++ evs ∧
    (∀ st', r = inr st' → st' = initial_state) ∧
    ∀ p payload mime result,
      Analyzed p payload mime result ∈ evs →
      result = inr EmptyString ∧
      last evs = Some (Analyzed p payload mime result).
Proof.
  apply (blank_answer_stores_nothing (PIL := Example.pillow) (hash := Example.hashlib)
           ExampleTick.args []
           (mkTick None (inr Example.white_2x2)
              (stripped_answers (fun _ _ _ => inr "  ")))
           initial_state ExampleTick.start (fun _ _ _ => inr "  ")).
  - intros l Hl. discriminate Hl.
  - reflexivity.
  - intros _ _ _. exists "  ". split; [reflexivity|]. repeat constructor.
Defined.
